(** * algolia-app-diff: index-list diffing and record normalisation

    A shallow embedding of [src/index.js]: the index-list fetcher
    ([downloadIndexList]), the record normaliser ([getRecordsFromIndex]),
    the divergence detector ([getIndicesWithDifferences]), the download
    orchestrator ([downloadIndicesWithDifferences]) and the content-diff
    reporter ([getDifferentIndices]).

    Conventions of the embedding.
    - JSON data is the inductive [json]; numbers are integers ([Z]) and a
      string is its sequence of code units.  A JavaScript object is an
      association list in property order; [undefined] is [None].
    - The lodash and Node functions the program calls ([_.omit], [_.sortBy],
      [_.map], [_.compact], [_.endsWith], [path.basename], ...) are written
      out after their implementation in lodash 4 and Node, under their own
      names.
    - Asynchronous code runs at concurrency 1, so a promise is a state
      transformer over the [world] (files, memoised clients, trace of remote
      calls and writes) that ends in [Ok], [Throw] or [Pending] (a promise
      that never settles).
    - The store under [./dist] maps a path to a [blob]; the JSON text that
      [firost.writeJson] produces is not modelled, only its byte length
      ([jsonSize], a parameter).  Writing a file does not fail.  Console
      output and the progress spinner are left out. *)

From Stdlib Require Import ZArith Lia String Ascii List Permutation Sorted.
From Stdlib Require Import OrdersEx.
From stdpp Require Import gmap strings list fin_maps pretty.

Set Warnings "-register-all".

Local Open Scope string_scope.
Local Open Scope Z_scope.

(** ** JSON values and objects *)

Inductive json : Type :=
  | JNull
  | JBool (b : bool)
  | JNum (n : Z)
  | JStr (s : string)
  | JArr (items : list json)
  | JObj (fields : list (string * json)).

(** A hit returned by the remote service: a JSON object. *)
Definition record : Type := list (string * json).

(** [object[key]] on the own properties of an object. *)
Fixpoint assoc (key : string) (fields : list (string * json)) : option json :=
  match fields with
  | [] => None
  | (k, v) :: rest => if String.eqb k key then Some v else assoc key rest
  end.

(** [key in object]. *)
Definition hasKey (key : string) (fields : list (string * json)) : bool :=
  match assoc key fields with Some _ => true | None => false end.

(** [value[key]] for a value reached while walking a path.  Strings and
    arrays only own [length] and indices, numbers and booleans own nothing,
    so for the property names of this program only objects answer. *)
Definition member (key : string) (value : json) : option json :=
  match value with
  | JObj fields => assoc key fields
  | _ => None
  end.

(** ** lodash: [_.omit(record, ['objectID'])]

    [omit] copies every property in order and then deletes the property at
    each path; the path ['objectID'] is the top-level property. *)
Definition omit (object : record) (paths : list string) : record :=
  List.filter (fun kv => negb (existsb (String.eqb (fst kv)) paths)) object.

(** ** lodash: property iteratees of [_.sortBy]

    A path is kept as its segments; [pathName] is the string the program
    wrote ("hierarchy.lvl0").  [baseGet] walks the segments and stops at
    [null] or [undefined]. *)
Definition pathName (path : list string) : string := String.concat "." path.

Fixpoint baseGet (object : option json) (path : list string) : option json :=
  match path with
  | [] => object
  | key :: rest =>
      match object with
      | None | Some JNull => None
      | Some value => baseGet (member key value) rest
      end
  end.

(** [property(path)(object)]: a one-segment path reads the property; a deep
    path is first tried as a literal key of the object ([isKey(path,
    object)] in [castPath]) and walked otherwise. *)
Definition property (path : list string) (object : record) : option json :=
  match path with
  | [key] => assoc key object
  | _ => if hasKey (pathName path) object
         then assoc (pathName path) object
         else baseGet (Some (JObj object)) path
  end.

(** ** JavaScript comparisons on JSON data

    [ToNumber] on the values whose conversion is an integer; [None] is
    [NaN].  The conversion of a string (a numeric literal) and of an array
    or object (through [ToPrimitive]) is outside the fragment modelled here
    and is [NaN]; the theorems on the sort assume keys inside the fragment
    ([crit_ok] below). *)
Definition toNumber (value : option json) : option Z :=
  match value with
  | Some JNull => Some 0
  | Some (JBool b) => Some (if b then 1 else 0)
  | Some (JNum n) => Some n
  | _ => None
  end.

(** [value < other]: code-unit order on two strings, numeric order
    otherwise, false when a side is [NaN]. *)
Definition js_lt (value other : option json) : bool :=
  match value, other with
  | Some (JStr s), Some (JStr t) => String.ltb s t
  | _, _ =>
      match toNumber value, toNumber other with
      | Some x, Some y => x <? y
      | _, _ => false
      end
  end.

Definition js_gt (value other : option json) : bool := js_lt other value.

(** [value !== other]: by value on primitives; the arrays and objects of
    two hits are distinct references. *)
Definition strict_neq (value other : option json) : bool :=
  match value, other with
  | None, None => false
  | Some JNull, Some JNull => false
  | Some (JBool a), Some (JBool b) => negb (Bool.eqb a b)
  | Some (JNum a), Some (JNum b) => negb (a =? b)
  | Some (JStr a), Some (JStr b) => negb (String.eqb a b)
  | _, _ => true
  end.

Definition isDefined (value : option json) : bool :=
  match value with None => false | Some _ => true end.

Definition isNull (value : option json) : bool :=
  match value with Some JNull => true | _ => false end.

(** lodash [compareAscending].  JSON data holds no symbol and no [NaN], so
    [valIsSymbol] is false and [valIsReflexive] is true. *)
Definition compareAscending (value other : option json) : Z :=
  if strict_neq value other then
    let valIsDefined := isDefined value in
    let valIsNull := isNull value in
    let valIsReflexive := true in
    let valIsSymbol := false in
    let othIsDefined := isDefined other in
    let othIsNull := isNull other in
    let othIsReflexive := true in
    let othIsSymbol := false in
    if (negb othIsNull && negb othIsSymbol && negb valIsSymbol && js_gt value other)
       || (valIsSymbol && othIsDefined && othIsReflexive && negb othIsNull && negb othIsSymbol)
       || (valIsNull && othIsDefined && othIsReflexive)
       || (negb valIsDefined && othIsReflexive)
       || negb valIsReflexive
    then 1
    else if (negb valIsNull && negb valIsSymbol && negb othIsSymbol && js_lt value other)
       || (othIsSymbol && valIsDefined && valIsReflexive && negb valIsNull && negb valIsSymbol)
       || (othIsNull && valIsDefined && valIsReflexive)
       || (negb othIsDefined && valIsReflexive)
       || negb othIsReflexive
    then -1
    else 0
  else 0.

(** The wrapper [baseOrderBy] sorts: the criteria of a value, its arrival
    index, and the value. *)
Record entry : Type := Entry {
  criteria : list (option json);
  index : Z;
  value : record;
}.

(** The criteria loop of lodash [compareMultiple] (no [orders] are given, so
    the first non-zero comparison is returned as it is). *)
Fixpoint compareCriteria (objCriteria othCriteria : list (option json)) : Z :=
  match objCriteria, othCriteria with
  | c :: objRest, d :: othRest =>
      let result := compareAscending c d in
      if result =? 0 then compareCriteria objRest othRest else result
  | _, _ => 0
  end.

(** [compareMultiple]: equal criteria fall back to the arrival index. *)
Definition compareMultiple (object other : entry) : Z :=
  let result := compareCriteria (criteria object) (criteria other) in
  if result =? 0 then index object - index other else result.

(** [Array.prototype.sort(comparer)].  [compareMultiple] never answers 0 on
    two different entries, so a consistent comparer fixes the result and any
    sorting procedure computes it; insertion is used here. *)
Section ArraySort.
Context {A : Type} (comparer : A -> A -> Z).

Fixpoint insertSorted (x : A) (sorted : list A) : list A :=
  match sorted with
  | [] => [x]
  | y :: rest =>
      if comparer x y <=? 0 then x :: y :: rest
      else y :: insertSorted x rest
  end.

Definition arraySort (array : list A) : list A :=
  List.fold_right insertSorted [] array.
End ArraySort.

(** [baseMap] with the running [index] of [baseOrderBy]. *)
Fixpoint toEntries (iteratees : list (list string)) (next : Z)
    (collection : list record) : list entry :=
  match collection with
  | [] => []
  | v :: rest =>
      Entry (List.map (fun iteratee => property iteratee v) iteratees) next v
      :: toEntries iteratees (next + 1) rest
  end.

(** [_.sortBy(collection, iteratees)]. *)
Definition sortBy (collection : list record) (iteratees : list (list string))
    : list record :=
  List.map value (arraySort compareMultiple (toEntries iteratees 0 collection)).

(** ** The normaliser: the ['end'] handler of [getRecordsFromIndex] *)

Definition sortKeys : list (list string) :=
  [ ["url"];
    ["hierarchy"; "lvl0"]; ["hierarchy"; "lvl1"]; ["hierarchy"; "lvl2"];
    ["hierarchy"; "lvl3"]; ["hierarchy"; "lvl4"]; ["hierarchy"; "lvl5"];
    ["hierarchy"; "lvl6"];
    ["weight"; "position"] ].

Definition normalize (result : list record) : list record :=
  sortBy (List.map (fun record => omit record ["objectID"]) result) sortKeys.

(** ** Strings: [_.endsWith], [String.prototype.split], [path.basename] *)

(** lodash [endsWith(string, target)]: the slice of [target]'s length that
    ends the string is compared with the target. *)
Definition endsWith (str target : string) : bool :=
  let position := (String.length str - String.length target)%nat in
  (String.length target <=? String.length str)%nat
  && String.eqb (substring position (String.length target) str) target.

(** [str.split(separator)] for a one-character separator. *)
Fixpoint split (separator : ascii) (str : string) : list string :=
  match str with
  | EmptyString => [""]
  | String c rest =>
      match split separator rest with
      | segment :: segments =>
          if Ascii.eqb c separator then "" :: segment :: segments
          else String c segment :: segments
      | [] => [String c ""]
      end
  end.

(** [_.dropRight(array, 1)] and [array.join(separator)]. *)
Definition dropRight1 (array : list string) : list string := List.removelast array.
Definition join (separator : string) (array : list string) : string :=
  String.concat separator array.

(** Node [path.basename(path, ext)] on a path that does not end in a
    separator (no path of this program does): the part after the last ['/'],
    without the extension unless the extension is the whole name. *)
Definition basename (path ext : string) : string :=
  let name := List.last (split "/" path) "" in
  if endsWith name ext && negb (String.eqb name ext)
  then substring 0 (String.length name - String.length ext) name
  else name.

(** ** The world of the process *)

(** One row of an account's index list, as [downloadIndexList] builds it. *)
Record IndexSummary : Type := {
  name : string;
  recordCount : Z;
  dataSize : Z;
  fileSize : Z;
  lastUpdate : string;
}.

(** One item of the remote answer to [listIndexes]. *)
Record IndexItem : Type := {
  item_name : string;
  item_entries : Z;
  item_dataSize : Z;
  item_fileSize : Z;
  item_updatedAt : string;
}.

(** A file under [./dist]: the JSON of an index list, the JSON of a record
    list, or plain text. *)
Inductive blob : Type :=
  | IndexListFile (list : list IndexSummary)
  | RecordsFile (records : list record)
  | TextFile (text : string).

(** How a browse of one index ends. *)
Inductive terminal : Type :=
  | End
  | Error (message : string).

(** The remote service and the credentials of the environment: whether
    [appId] and [apiKey] are set for an app, the answer to [listIndexes]
    (an error message, or the items), and the ['result'] pages of
    [browseAll] followed by ['end'] or ['error']. *)
Record service : Type := {
  credentials : string -> bool;
  listIndexes : string -> string + list IndexItem;
  browseAll : string -> string -> list (list record) * terminal;
}.

Inductive event : Type :=
  | CallListIndexes (appName : string)
  | CallBrowseAll (appName indexName : string)
  | WriteFile (filePath : string).

Record world : Type := World {
  files : gmap string blob;
  clients : gset string;
  trace : list event;
  allocated : nat;
}.

(** The outcome of a promise: fulfilled, rejected with an error message, or
    never settled. *)
Inductive outcome (A : Type) : Type :=
  | Ok (a : A)
  | Throw (message : string)
  | Pending.
Arguments Ok {A} a.
Arguments Throw {A} message.
Arguments Pending {A}.

Definition promise (A : Type) : Type := world -> outcome A * world.

Definition resolve {A} (a : A) : promise A := fun w => (Ok a, w).
Definition reject {A} (message : string) : promise A := fun w => (Throw message, w).
Definition never {A} : promise A := fun w => (Pending, w).
(** The promise of a computation that has already ended. *)
Definition settle {A} (o : outcome A) : promise A := fun w => (o, w).

Definition await {A B} (m : promise A) (k : A -> promise B) : promise B :=
  fun w =>
    match m w with
    | (Ok a, w') => k a w'
    | (Throw message, w') => (Throw message, w')
    | (Pending, w') => (Pending, w')
    end.

(** [try { m } catch (error) { handler(error.message) }]. *)
Definition tryCatch {A} (m : promise A) (handler : string -> promise A) : promise A :=
  fun w =>
    match m w with
    | (Throw message, w') => handler message w'
    | settled => settled
    end.

Notation "x <- m ;; k" := (await m (fun x => k))
  (at level 100, m at next level, right associativity).
Notation "m ;;; k" := (await m (fun _ => k))
  (at level 100, right associativity).

(** [pMap(input, mapper, {concurrency: 1})]: one call after the other; the
    first rejection rejects the whole. *)
Fixpoint pMap {A} (input : list A) (mapper : A -> promise unit) : promise unit :=
  match input with
  | [] => resolve tt
  | x :: rest => mapper x ;;; pMap rest mapper
  end.

Definition logEvent (e : event) : promise unit :=
  fun w => (Ok tt, World (files w) (clients w) (trace w ++ [e]) (allocated w)).

(** *** The file helpers ([firost], [fs]) *)

Definition isFile (filePath : string) : promise bool :=
  fun w => (Ok (bool_decide (is_Some (files w !! filePath))), w).

Definition writeBlob (filePath : string) (content : blob) : promise unit :=
  fun w => (Ok tt, World (<[filePath := content]> (files w)) (clients w)
                         (trace w ++ [WriteFile filePath]) (allocated w)).

(** [firost.readJson] of an index list.  The program only stores index
    lists under [./dist/apps]; any other content there is reported as a
    parse error. *)
Definition readIndexList (filePath : string) : promise (list IndexSummary) :=
  fun w =>
    match files w !! filePath with
    | Some (IndexListFile list) => (Ok list, w)
    | Some _ => (Throw "SyntaxError: unexpected content", w)
    | None => (Throw "ENOENT: no such file or directory", w)
    end.

(** The pattern ['./dist/indices/*.json']: the files of that directory
    itself ([*] does not cross a ['/']) whose name ends in [.json] and does
    not start with a dot (which [*] does not match by default). *)
Definition indicesDir : string := "./dist/indices/".

Definition matchesIndicesGlob (filePath : string) : bool :=
  String.prefix indicesDir filePath
  && (let name := substring (String.length indicesDir)
                    (String.length filePath - String.length indicesDir) filePath in
      match split "/" name with
      | [_] => endsWith name ".json"
               && negb (String.prefix "." name)
      | _ => false
      end).

(** [firost.glob('./dist/indices/*.json')]: the matching paths of the store
    (in the order of the store, which the statements below do not depend
    on). *)
Definition scan (w : world) : list string :=
  List.filter matchesIndicesGlob (List.map fst (map_to_list (files w))).

Definition glob : promise (list string) :=
  fun w => (Ok (scan w), w).

(** ** The program *)

(** An index name as the detector hands it on: a property name of the
    size mapping, or an array index when lodash walks the mapping as an
    array-like object. *)
Inductive key : Type :=
  | KeyName (name : string)
  | KeyIndex (index : Z).

(** The string of a key in a template literal or a property access. *)
Definition keyString (k : key) : string :=
  match k with
  | KeyName name => name
  | KeyIndex index => pretty index
  end.

(** [configs]: the two apps, in the order of [_.keys(this.configs)]. *)
Definition apps : list string := ["mesos"; "kubernetes"].

(** [convertList]: [result[index.name] = index.dataSize] on a plain object.
    Assigning a number to [__proto__] creates no property. *)
Definition convertList (list : list IndexSummary) : gmap string Z :=
  List.fold_left
    (fun result index =>
       if String.eqb (name index) "__proto__" then result
       else <[name index := dataSize index]> result)
    list ∅.

(** lodash [isLength]. *)
Definition MAX_SAFE_INTEGER : Z := 9007199254740991.
Definition isLength (value : Z) : bool := (-1 <? value) && (value <=? MAX_SAFE_INTEGER).

(** lodash [_.map(collection, iteratee)] on a plain object ([baseMap] over
    [baseEach]).  An object whose [length] property is a valid length is
    array-like: the result is allocated with [Array(length)] (a
    [RangeError] above 2^32 - 1) and the iteratee is called with
    [collection[index]] and [index] for each index below [length].  Any
    other object is walked by [baseForOwn] over its own properties (here in
    the order of the map). *)
Definition lodashMap {B} (collection : gmap string Z) (iteratee : option Z -> key -> B)
    : outcome (list B) :=
  let forOwn :=
    Ok (List.map (fun kv => iteratee (Some (snd kv)) (KeyName (fst kv)))
                 (map_to_list collection)) in
  match collection !! "length" with
  | Some length =>
      if isLength length then
        if 4294967295 <? length then Throw "RangeError: Invalid array length"
        else Ok (List.map (fun index => iteratee (collection !! pretty index) (KeyIndex index))
                          (seqZ 0 length))
      else forOwn
  | None => forOwn
  end.

(** lodash [_.compact]: drops the falsey values, which for a name or [null]
    are [null], the empty string and the index 0. *)
Definition truthy (value : option key) : bool :=
  match value with
  | None => false
  | Some (KeyName name) => negb (String.eqb name "")
  | Some (KeyIndex index) => negb (index =? 0)
  end.

Definition compact (array : list (option key)) : list key :=
  omap (fun value => if truthy value then value else None) array.

(** The iteratee of [getIndicesWithDifferences]; a property the kubernetes
    mapping does not own is [undefined] or an inherited function, neither
    of which equals a size. *)
Definition differingName (kubernetesList : gmap string Z) (size : option Z) (name : key)
    : option key :=
  let kubernetesSize := kubernetesList !! keyString name in
  if bool_decide (kubernetesSize ≠ size) then Some name else None.

(** The body of [getIndicesWithDifferences] once the two lists are read:
    [convertList] on each, then the [map] and [compact] chain. *)
Definition divergentNames (mesosIndices kubernetesIndices : list IndexSummary)
    : outcome (list key) :=
  let mesosList := convertList mesosIndices in
  let kubernetesList := convertList kubernetesIndices in
  match lodashMap mesosList (differingName kubernetesList) with
  | Ok names => Ok (compact names)
  | Throw message => Throw message
  | Pending => Pending
  end.

(** [path.basename], [split], [_.last] and [_.dropRight(...).join] of the
    reporter's first [map] ([split] never returns an empty array, so
    [_.last] is defined). *)
Record parsed : Type := Parsed {
  type : string;
  indexName : string;
}.

Definition parseFilepath (filepath : string) : parsed :=
  let basename := basename filepath ".json" in
  let split := split "-" basename in
  let type := List.last split "" in
  let indexName := join "-" (dropRight1 split) in
  Parsed type indexName.

Definition indexFilePath (indexName appName : string) : string :=
  "./dist/indices/" +:+ indexName +:+ "-" +:+ appName +:+ ".json".

(** The accumulator of the reporter's [transform]. *)
Record groups : Type := Groups {
  kubernetes : list string;
  mesos : list string;
}.

(** [result[value.type].push(value.indexName)]: any other type has no array
    to push to. *)
Fixpoint transformGroups (values : list parsed) (result : groups) : outcome groups :=
  match values with
  | [] => Ok result
  | value :: rest =>
      if String.eqb (type value) "kubernetes"
      then transformGroups rest (Groups (kubernetes result ++ [indexName value]) (mesos result))
      else if String.eqb (type value) "mesos"
      then transformGroups rest (Groups (kubernetes result) (mesos result ++ [indexName value]))
      else Throw "TypeError: Cannot read property 'push' of undefined"
  end.

(** An [fs.Stats] object: its identity and its [size]. *)
Record Stats : Type := {
  ref : nat;
  size : Z;
}.

Section Program.
Context (remote : service).
(** The byte length of the JSON text [firost.writeJson] produces. *)
Context (jsonSize : blob -> Z).

(** [getClient]: the client of an app, created on first use. *)
Definition getClient (appName : string) : promise unit :=
  fun w =>
    if negb (bool_decide (appName ∈ apps))
    then (Throw "TypeError: Cannot read property 'client' of undefined", w)
    else if bool_decide (appName ∈ clients w) then (Ok tt, w)
    else if credentials remote appName
    then (Ok tt, World (files w) ({[appName]} ∪ clients w) (trace w) (allocated w))
    else (Throw "AlgoliaSearchError: Please provide an application ID", w).

Definition toSummary (index : IndexItem) : IndexSummary :=
  {| name := item_name index;
     recordCount := item_entries index;
     dataSize := item_dataSize index;
     fileSize := item_fileSize index;
     lastUpdate := item_updatedAt index |}.

Definition downloadIndexList (appName : string) : promise (list IndexSummary) :=
  let filePath := "./dist/apps/" +:+ appName +:+ ".json" in
  cached <- isFile filePath ;;
  if cached then readIndexList filePath
  else
    getClient appName ;;;
    logEvent (CallListIndexes appName) ;;;
    match listIndexes remote appName with
    | inl message => reject message
    | inr items =>
        let indexData :=
          List.filter (fun index => negb (endsWith (name index) "_tmp"))
                      (List.map toSummary items) in
        writeBlob ("./dist/apps/" +:+ appName +:+ ".json") (IndexListFile indexData) ;;;
        resolve indexData
    end.

(** [getRecordsFromIndex]: the pages are concatenated; ['end'] resolves
    with the normalised records and ['error'] rejects.  The executor is an
    [async] function, so an exception of [getClient] inside it settles
    nothing. *)
Definition getRecordsFromIndex (appName indexName : string) : promise (list record) :=
  fun w =>
    match getClient appName w with
    | (Ok _, w1) =>
        let w2 := snd (logEvent (CallBrowseAll appName indexName) w1) in
        let result := List.concat (fst (browseAll remote appName indexName)) in
        match snd (browseAll remote appName indexName) with
        | End => (Ok (normalize result), w2)
        | Error message => (Throw message, w2)
        end
    | (_, w1) => (Pending, w1)
    end.

Definition getIndicesWithDifferences : promise (list key) :=
  mesosIndices <- downloadIndexList "mesos" ;;
  kubernetesIndices <- downloadIndexList "kubernetes" ;;
  settle (divergentNames mesosIndices kubernetesIndices).

(** The inner mapper of [downloadIndicesWithDifferences]. *)
Definition downloadPair (indexName appName : string) : promise unit :=
  let filePath := indexFilePath indexName appName in
  cached <- isFile filePath ;;
  if cached then resolve tt
  else
    tryCatch
      (records <- getRecordsFromIndex appName indexName ;;
       writeBlob filePath (RecordsFile records))
      (fun message => writeBlob filePath (TextFile ("ERROR: " +:+ message))).

(** The two nested [pMap]s. *)
Definition downloadAll (indices : list key) : promise unit :=
  pMap indices (fun indexName =>
    pMap apps (fun appName => downloadPair (keyString indexName) appName)).

Definition downloadIndicesWithDifferences : promise unit :=
  indices <- getIndicesWithDifferences ;;
  downloadAll indices.

(** The size of a file in bytes. *)
Definition blobSize (content : blob) : Z :=
  match content with
  | TextFile text => Z.of_nat (String.length text)
  | _ => jsonSize content
  end.

(** [fs.statSync]: a new [Stats] object at each call. *)
Definition statSync (filePath : string) : promise Stats :=
  fun w =>
    match files w !! filePath with
    | Some content =>
        (Ok {| ref := allocated w; size := blobSize content |},
         World (files w) (clients w) (trace w) (S (allocated w)))
    | None => (Throw "ENOENT: no such file or directory, stat", w)
    end.

(** The [_.each] over [indices.kubernetes]; [kubeSize === mesosSize]
    compares the two [Stats] objects. *)
Fixpoint eachKubernetes (names : list string) (results : list string)
    : promise (list string) :=
  match names with
  | [] => resolve results
  | indexName :: rest =>
      if String.eqb indexName "" then eachKubernetes rest results
      else
        kubeSize <- statSync ("./dist/indices/" +:+ indexName +:+ "-kubernetes.json") ;;
        mesosSize <- statSync ("./dist/indices/" +:+ indexName +:+ "-mesos.json") ;;
        if (size kubeSize <? 100) || Nat.eqb (ref kubeSize) (ref mesosSize)
        then eachKubernetes rest results
        else eachKubernetes rest (results ++ [indexName])
  end.

Definition getDifferentIndices : promise (list string) :=
  rawList <- glob ;;
  match transformGroups (List.map parseFilepath rawList) (Groups [] []) with
  | Ok indices => eachKubernetes (kubernetes indices) []
  | Throw message => reject message
  | Pending => never
  end.

(** The entry point: download, then report. *)
Definition main : promise (list string) :=
  downloadIndicesWithDifferences ;;;
  getDifferentIndices.
End Program.

(** * Vocabulary of the statements *)

Definition omitID (r : record) : record := omit r ["objectID"].

(** The key tuple of a record: its nine criteria. *)
Definition keyTuple (r : record) : list (option json) :=
  List.map (fun iteratee => property iteratee r) sortKeys.

(** The entries [baseOrderBy] builds for a list of hits, and their sorted
    arrangement. *)
Definition entriesOf (result : list record) : list entry :=
  toEntries sortKeys 0 (List.map omitID result).

Definition sortedEntries (result : list record) : list entry :=
  arraySort compareMultiple (entriesOf result).

(** A key column holds strings or numbers; in either, a value may be [null]
    or missing. *)
Inductive column : Type := StringColumn | NumberColumn.

Definition crit_ok (t : column) (c : option json) : Prop :=
  match c with
  | None | Some JNull => True
  | Some (JStr _) => t = StringColumn
  | Some (JNum _) => t = NumberColumn
  | Some _ => False
  end.

Definition keys_ok (ts : list column) (cs : list (option json)) : Prop :=
  Forall2 crit_ok ts cs.

Definition entry_ok (ts : list column) (e : entry) : Prop := keys_ok ts (criteria e).

(** The columns of a documentation-search record: eight strings and a
    numeric position. *)
Definition docColumns : list column :=
  (List.repeat StringColumn 8 ++ [NumberColumn])%list.

(** [str.includes(c)] for a character. *)
Fixpoint includes (c : ascii) (str : string) : bool :=
  match str with
  | EmptyString => false
  | String a rest => Ascii.eqb a c || includes c rest
  end.

(** The cache file of an account's index list. *)
Definition appFilePath (appName : string) : string :=
  "./dist/apps/" +:+ appName +:+ ".json".

(** The number of [listIndexes] calls for an account in a trace. *)
Definition listCalls (appName : string) (events : list event) : nat :=
  List.length
    (List.filter
       (fun e => match e with
                 | CallListIndexes a => String.eqb a appName
                 | _ => false
                 end)
       events).

(** What [downloadIndexList] keeps of the remote items. *)
Definition keptIndices (items : list IndexItem) : list IndexSummary :=
  List.filter (fun index => negb (endsWith (name index) "_tmp"))
              (List.map toSummary items).

(** What a pair's download leaves in its file: the normalised records, or
    the error marker. *)
Definition downloaded (remote : service) (indexName appName : string) : blob :=
  match snd (browseAll remote appName indexName) with
  | End => RecordsFile (normalize (List.concat (fst (browseAll remote appName indexName))))
  | Error message => TextFile ("ERROR: " +:+ message)
  end.

(** An event of a run that started in [w] concerns a file [w] did not
    hold. *)
Definition freshIn (w : world) (e : event) : Prop :=
  match e with
  | CallBrowseAll appName indexName => files w !! indexFilePath indexName appName = None
  | WriteFile filePath => files w !! filePath = None
  | CallListIndexes _ => False
  end.

(** [w'] is [w] after some downloads: no file of [w] changed, every new
    file is the download of its pair, and the trace grew by events on new
    files. *)
Record extends (remote : service) (w w' : world) : Prop := {
  ext_kept : forall p c, files w !! p = Some c -> files w' !! p = Some c;
  ext_new : forall p c, files w !! p = None -> files w' !! p = Some c ->
            exists i a, In a apps /\ p = indexFilePath i a /\ c = downloaded remote i a;
  ext_trace : exists events,
      trace w' = (trace w ++ events)%list /\ List.Forall (freshIn w) events;
}.

(** Whether the reporter keeps an index name, given the store: the name is
    not empty and the kubernetes artifact has 100 bytes or more. *)
Definition keptBySize (jsonSize : blob -> Z) (store : gmap string blob) (indexName : string)
    : bool :=
  negb (String.eqb indexName "")
  && match store !! indexFilePath indexName "kubernetes" with
     | Some content => negb (blobSize jsonSize content <? 100)
     | None => false
     end.

(** * Sample data *)

(** Sample hits used to exercise the statements below. *)
Definition hitIntro : record :=
  [ ("objectID", JStr "8f1c"); ("url", JStr "https://docs.example/intro");
    ("hierarchy", JObj [("lvl0", JStr "Guide"); ("lvl1", JNull)]);
    ("weight", JObj [("position", JNum 0)]) ].

Definition hitIntroNext : record :=
  [ ("objectID", JStr "2a90"); ("url", JStr "https://docs.example/intro");
    ("hierarchy", JObj [("lvl0", JStr "Guide"); ("lvl1", JNull)]);
    ("weight", JObj [("position", JNum 1)]) ].

Definition hitNoUrl : record :=
  [ ("objectID", JStr "77b2"); ("content", JStr "orphan") ].

Definition hitFirst : record :=
  [ ("objectID", JStr "1"); ("url", JStr "https://docs.example/api");
    ("content", JStr "first") ].

Definition hitSecond : record :=
  [ ("objectID", JStr "2"); ("url", JStr "https://docs.example/api");
    ("content", JStr "second") ].

(** A sample service: the account lists of the divergence example, and a
    browse that fails for one pair. *)
Definition indexItem (name : string) (dataSize : Z) : IndexItem :=
  {| item_name := name; item_entries := 2; item_dataSize := dataSize;
     item_fileSize := dataSize; item_updatedAt := "2019-08-01T00:00:00.000Z" |}.

Definition summary (indexName : string) (bytes : Z) : IndexSummary :=
  {| name := indexName; recordCount := 2; dataSize := bytes; fileSize := bytes;
     lastUpdate := "2019-08-01T00:00:00.000Z" |}.

Definition sampleService : service :=
  {| credentials := fun _ => true;
     listIndexes := fun appName =>
       if String.eqb appName "mesos"
       then inr [indexItem "foo" 100; indexItem "bar" 50; indexItem "bar_tmp" 7]
       else inr [indexItem "foo" 100; indexItem "bar" 60; indexItem "baz" 10];
     browseAll := fun appName indexName =>
       if String.eqb appName "mesos"
       then ([[hitNoUrl]; [hitIntroNext; hitIntro]], End)
       else ([[hitIntro]], Error "Index does not exist") |}.

(** A service whose two accounts hold an index called [length], of
    different sizes. *)
Definition lengthService : service :=
  {| credentials := fun _ => true;
     listIndexes := fun appName =>
       if String.eqb appName "mesos"
       then inr [indexItem "length" 1]
       else inr [indexItem "length" 2];
     browseAll := fun _ _ => ([], End) |}.

Definition emptyWorld : world := World ∅ ∅ [] 0.

(** The batch of the sample service on two indices, from a store that
    already holds one of the four files. *)
Definition cachedWorld : world :=
  World {[ indexFilePath "foo" "mesos" := TextFile "ERROR: earlier run" ]} ∅ [] 0.

(** A text artifact of a given number of bytes. *)
Definition textOfSize (bytes : nat) : blob :=
  TextFile (String.concat "" (List.repeat "x" bytes)).

(** A store that holds the two artifacts of the index [docs]. *)
Definition artifactsWorld (kubernetesBytes mesosBytes : nat) : world :=
  World (<[indexFilePath "docs" "kubernetes" := textOfSize kubernetesBytes]>
           {[ indexFilePath "docs" "mesos" := textOfSize mesosBytes ]}) ∅ [] 0.

(** A store with one kubernetes artifact, of a given index name. *)
Definition loneKubernetesWorld (indexName : string) : world :=
  World {[ indexFilePath indexName "kubernetes" := textOfSize 500 ]} ∅ [] 0.

(** A service without credentials, and one whose listing fails. *)
Definition lockedService : service :=
  {| credentials := fun _ => false;
     listIndexes := fun _ => inl "Invalid Application-ID or API key";
     browseAll := fun _ _ => ([], Error "Invalid Application-ID or API key") |}.

Definition downService : service :=
  {| credentials := fun _ => true;
     listIndexes := fun _ => inl "Unreachable hosts";
     browseAll := fun _ _ => ([], Error "Unreachable hosts") |}.

(** A service for an environment that has the credentials of the mesos
    account only; every browse it is asked for ends normally. *)
Definition mesosOnlyService : service :=
  {| credentials := fun appName => String.eqb appName "mesos";
     listIndexes := listIndexes sampleService;
     browseAll := fun _ _ => ([[hitNoUrl]; [hitIntroNext; hitIntro]], End) |}.

(** A store that holds the two index lists of the divergence example. *)
Definition listsWorld : world :=
  World (<[appFilePath "mesos" := IndexListFile [summary "foo" 100; summary "bar" 50]]>
           {[ appFilePath "kubernetes" :=
                IndexListFile [summary "foo" 100; summary "bar" 60; summary "baz" 10] ]})
        ∅ [] 0.

(** A store with the two artifacts of [docs] and a stray file. *)
Definition strayWorld : world :=
  World (<["./dist/indices/notes.json" := TextFile "to do"]> (files (artifactsWorld 500 400)))
        ∅ [] 0.

(** A store that holds the two artifacts of the index [docs], of given
    contents. *)
Definition docsWorld (kubernetesContent mesosContent : blob) : world :=
  World (<[indexFilePath "docs" "kubernetes" := kubernetesContent]>
           {[ indexFilePath "docs" "mesos" := mesosContent ]}) ∅ [] 0.

(** * Properties *)

(** ** Sorting with a comparer *)

Section ArraySortFacts.
Context {A : Type} (comparer : A -> A -> Z).

Lemma insertSorted_Permutation (x : A) (l : list A) :
  Permutation (insertSorted comparer x l) (x :: l).
Proof.
  induction l as [|y l IH]; simpl; [reflexivity|].
  destruct (comparer x y <=? 0); [reflexivity|].
  rewrite IH. apply perm_swap.
Qed.

Lemma arraySort_Permutation (l : list A) : Permutation (arraySort comparer l) l.
Proof.
  induction l as [|x l IH]; simpl; [reflexivity|].
  rewrite insertSorted_Permutation. now constructor.
Qed.

(** The comparer is only asked to be an order on the elements that are
    sorted: [P] holds of them. *)
Context (P : A -> Prop).
Local Abbreviation le := (fun a b : A => comparer a b <= 0).

Hypothesis comparer_total : forall a b, P a -> P b -> le a b \/ le b a.
Hypothesis comparer_trans :
  forall a b c, P a -> P b -> P c -> le a b -> le b c -> le a c.

Lemma insertSorted_sorted (x : A) (l : list A) :
  P x -> List.Forall P l -> StronglySorted le l ->
  StronglySorted le (insertSorted comparer x l).
Proof using comparer_total comparer_trans.
  intros Px Pl Hs. induction Hs as [|y l Hs IH Hy]; simpl.
  - repeat constructor.
  - inversion Pl as [|? ? Py Pl']; subst.
    destruct (Z.leb_spec (comparer x y) 0) as [Hxy|Hxy].
    + constructor; [now constructor|].
      constructor; [exact Hxy|].
      rewrite List.Forall_forall in Hy, Pl' |- *. intros z Hz.
      apply (comparer_trans x y z); auto.
    + constructor; [auto|].
      rewrite List.Forall_forall in Hy |- *. intros z Hz.
      apply (Permutation_in _ (insertSorted_Permutation x l)) in Hz.
      destruct Hz as [<-|Hz]; [|auto].
      destruct (comparer_total x y Px Py) as [H|H]; [cbv beta in H; lia|exact H].
Qed.

Lemma arraySort_sorted (l : list A) :
  List.Forall P l -> StronglySorted le (arraySort comparer l).
Proof using comparer_total comparer_trans.
  induction l as [|x l IH]; simpl; intros Hl; [constructor|].
  inversion Hl; subst. apply insertSorted_sorted; auto.
  rewrite List.Forall_forall in *. intros z Hz.
  apply (Permutation_in _ (arraySort_Permutation l)) in Hz. auto.
Qed.
End ArraySortFacts.

(** Two sorted arrangements of the same elements are equal when the order
    is antisymmetric on them. *)
Lemma sorted_Permutation_unique {A : Type} (R : A -> A -> Prop) (l1 l2 : list A) :
  (forall a b, In a l1 -> In b l1 -> R a b -> R b a -> a = b) ->
  StronglySorted R l1 -> StronglySorted R l2 -> Permutation l1 l2 -> l1 = l2.
Proof.
  revert l2. induction l1 as [|a l1 IH]; intros l2 Hanti H1 H2 Hp.
  - now apply Permutation_nil in Hp.
  - destruct l2 as [|b l2]; [now apply Permutation_sym, Permutation_nil in Hp|].
    apply StronglySorted_inv in H1 as [H1 Ha].
    apply StronglySorted_inv in H2 as [H2 Hb].
    assert (a = b) as ->.
    { assert (In a (b :: l2)) as [->|Hin] by (apply (Permutation_in _ Hp); now left);
        [reflexivity|].
      assert (In b (a :: l1)) as [->|Hin'].
      { apply (Permutation_in _ (Permutation_sym Hp)). now left. }
      - reflexivity.
      - rewrite List.Forall_forall in Ha, Hb.
        apply Hanti; [now left|now right|auto|auto]. }
    f_equal. apply IH; auto.
    + intros x y Hx Hy. apply Hanti; now right.
    + now apply Permutation_cons_inv in Hp.
Qed.

Lemma StronglySorted_filter {A : Type} (R : A -> A -> Prop) (f : A -> bool) (l : list A) :
  StronglySorted R l -> StronglySorted R (List.filter f l).
Proof.
  induction 1 as [|x l Hs IH Hx]; simpl; [constructor|].
  destruct (f x); [|exact IH].
  constructor; [exact IH|].
  rewrite List.Forall_forall in Hx |- *. intros y Hy.
  apply List.filter_In in Hy as [Hy _]. auto.
Qed.

Lemma StronglySorted_weaken {A : Type} (R R' : A -> A -> Prop) (l : list A) :
  (forall a b, In a l -> In b l -> R a b -> R' a b) ->
  StronglySorted R l -> StronglySorted R' l.
Proof.
  intros Himp Hs. induction Hs as [|x l Hs IH Hx]; [constructor|].
  constructor.
  - apply IH. intros a b Ha Hb. apply Himp; now right.
  - rewrite List.Forall_forall in Hx |- *. intros y Hy.
    apply Himp; [now left|now right|auto].
Qed.

Lemma StronglySorted_map {A B : Type} (R : B -> B -> Prop) (f : A -> B) (l : list A) :
  StronglySorted (fun a b => R (f a) (f b)) l -> StronglySorted R (List.map f l).
Proof.
  induction 1 as [|x l Hs IH Hx]; simpl; constructor; [exact IH|].
  rewrite List.Forall_forall in Hx |- *. intros y Hy.
  apply List.in_map_iff in Hy as (z & <- & Hz). auto.
Qed.

Lemma filter_Permutation_bool {A : Type} (f : A -> bool) (l l' : list A) :
  Permutation l l' -> Permutation (List.filter f l) (List.filter f l').
Proof.
  induction 1 as [|x l l' Hp IH|x y l|l l' l'' H1 IH1 H2 IH2]; simpl.
  - constructor.
  - destruct (f x); [now constructor|exact IH].
  - destruct (f x), (f y); try reflexivity. apply perm_swap.
  - now transitivity (List.filter f l').
Qed.

(** ** The order of [compareAscending] on typed keys *)

Lemma string_compare_lt_trans (s t u : string) :
  String.compare s t = Lt -> String.compare t u = Lt -> String.compare s u = Lt.
Proof.
  revert t u. induction s as [|a s IH]; intros [|b t] [|c u]; simpl; try congruence.
  unfold Ascii.compare.
  destruct (N.compare_spec (N_of_ascii a) (N_of_ascii b)) as [E1|L1|G1]; try congruence;
  destruct (N.compare_spec (N_of_ascii b) (N_of_ascii c)) as [E2|L2|G2]; try congruence;
  intros H1 H2.
  - rewrite E1, E2, N.compare_refl. eauto.
  - rewrite E1. now apply N.compare_lt_iff in L2 as ->.
  - rewrite <- E2. now apply N.compare_lt_iff in L1 as ->.
  - assert (N_of_ascii a < N_of_ascii c)%N as L by lia.
    now apply N.compare_lt_iff in L as ->.
Qed.

Lemma string_compare_refl (s : string) : String.compare s s = Eq.
Proof.
  induction s as [|a s IH]; simpl; [reflexivity|].
  unfold Ascii.compare. now rewrite N.compare_refl.
Qed.

(** [compareAscending] on two strings is the sign of their comparison. *)
Lemma compareAscending_strings (s t : string) :
  compareAscending (Some (JStr s)) (Some (JStr t)) =
  match String.compare s t with Lt => -1 | Eq => 0 | Gt => 1 end.
Proof.
  unfold compareAscending, js_gt, js_lt, String.ltb. simpl.
  destruct (String.eqb_spec s t) as [->|Hne]; simpl.
  - now rewrite string_compare_refl.
  - rewrite (String.compare_antisym s t).
    destruct (String.compare t s) eqn:E; reflexivity.
Qed.

Lemma compareAscending_numbers (n m : Z) :
  compareAscending (Some (JNum n)) (Some (JNum m)) =
  match Z.compare n m with Lt => -1 | Eq => 0 | Gt => 1 end.
Proof.
  unfold compareAscending, js_gt, js_lt. simpl.
  destruct (Z.compare_spec n m) as [->|H|H].
  - now rewrite Z.eqb_refl.
  - destruct (Z.eqb_spec n m); [lia|]. simpl.
    destruct (Z.ltb_spec m n); [lia|]. simpl.
    destruct (Z.ltb_spec n m); [reflexivity|lia].
  - destruct (Z.eqb_spec n m); [lia|]. simpl.
    destruct (Z.ltb_spec m n); [reflexivity|lia].
Qed.

(** The rank of a typed key: present values first, then [null], then the
    missing ones. *)
Ltac typed_cases a Ha :=
  destruct a as [[| | | | |]|]; simpl in Ha; try contradiction;
  try discriminate; try subst.

Ltac mixed_cases :=
  unfold compareAscending, js_gt, js_lt; simpl;
  repeat match goal with |- context [Z.ltb ?x ?y] => destruct (Z.ltb x y) end;
  simpl; intros; first [reflexivity | discriminate | lia].

Lemma compareAscending_refl (t : column) (a : option json) :
  crit_ok t a -> compareAscending a a = 0.
Proof.
  intros Ha. typed_cases a Ha; try reflexivity.
  - rewrite compareAscending_numbers. now rewrite Z.compare_refl.
  - rewrite compareAscending_strings. now rewrite string_compare_refl.
Qed.

Lemma compareAscending_antisym (t : column) (a b : option json) :
  crit_ok t a -> crit_ok t b -> compareAscending b a = - compareAscending a b.
Proof.
  intros Ha Hb. typed_cases a Ha; typed_cases b Hb; try mixed_cases.
  - rewrite !compareAscending_numbers, (Z.compare_antisym n0 n).
    now destruct (Z.compare n0 n).
  - rewrite !compareAscending_strings, (String.compare_antisym s0 s).
    now destruct (String.compare s s0).
Qed.

Lemma compareAscending_eq (t : column) (a b : option json) :
  crit_ok t a -> crit_ok t b -> compareAscending a b = 0 -> a = b.
Proof.
  intros Ha Hb. typed_cases a Ha; typed_cases b Hb; try mixed_cases.
  - rewrite compareAscending_numbers.
    destruct (Z.compare_spec n n0); try discriminate. now subst.
  - rewrite compareAscending_strings.
    destruct (String.compare s s0) eqn:E; try discriminate.
    apply String.compare_eq_iff in E. now subst.
Qed.

Lemma compareAscending_trans (t : column) (a b c : option json) :
  crit_ok t a -> crit_ok t b -> crit_ok t c ->
  compareAscending a b <= 0 -> compareAscending b c <= 0 -> compareAscending a c <= 0.
Proof.
  intros Ha Hb Hc.
  typed_cases a Ha; typed_cases b Hb; typed_cases c Hc; try mixed_cases.
  - rewrite !compareAscending_numbers.
    destruct (Z.compare_spec n n0), (Z.compare_spec n0 n1), (Z.compare_spec n n1);
      intros; lia.
  - rewrite !compareAscending_strings.
    destruct (String.compare s s0) eqn:E1; try lia;
    destruct (String.compare s0 s1) eqn:E2; try lia; intros _ _.
    + apply String.compare_eq_iff in E1, E2. subst. now rewrite string_compare_refl.
    + apply String.compare_eq_iff in E1. subst. now rewrite E2.
    + apply String.compare_eq_iff in E2. subst. now rewrite E1.
    + now rewrite (string_compare_lt_trans _ _ _ E1 E2).
Qed.

(** A missing key ranks after every present one, [null] included. *)
Lemma compareAscending_missing_last (v : json) :
  compareAscending None (Some v) = 1 /\ compareAscending (Some v) None = -1.
Proof.
  split; destruct v; mixed_cases.
Qed.

(** ** The order of [compareMultiple] *)

Section TypedKeys.
Context (ts : list column).

Lemma compareCriteria_antisym (cs ds : list (option json)) :
  keys_ok ts cs -> keys_ok ts ds -> compareCriteria ds cs = - compareCriteria cs ds.
Proof.
  unfold keys_ok. intros Hc. revert ds.
  induction Hc as [|t c ts' cs Hc _ IH]; intros ds Hd; inversion Hd; subst;
    simpl; [reflexivity|].
  rewrite (compareAscending_antisym t c y) by assumption.
  destruct (Z.eqb_spec (compareAscending c y) 0) as [E|E].
  - rewrite E. simpl. auto.
  - destruct (Z.eqb_spec (- compareAscending c y) 0); [lia|reflexivity].
Qed.

Lemma compareCriteria_eq (cs ds : list (option json)) :
  keys_ok ts cs -> keys_ok ts ds -> compareCriteria cs ds = 0 -> cs = ds.
Proof.
  unfold keys_ok. intros Hc. revert ds.
  induction Hc as [|t c ts' cs Hc _ IH]; intros ds Hd; inversion Hd; subst;
    simpl; [reflexivity|].
  destruct (Z.eqb_spec (compareAscending c y) 0) as [E|E]; [|congruence].
  intros H0. f_equal; [eapply compareAscending_eq; eauto|auto].
Qed.

Lemma compareCriteria_refl (cs : list (option json)) :
  keys_ok ts cs -> compareCriteria cs cs = 0.
Proof.
  unfold keys_ok. induction 1 as [|t c ts' cs Hc _ IH]; simpl; [reflexivity|].
  now rewrite (compareAscending_refl t c Hc).
Qed.

Lemma compareCriteria_trans (cs ds es : list (option json)) :
  keys_ok ts cs -> keys_ok ts ds -> keys_ok ts es ->
  compareCriteria cs ds <= 0 -> compareCriteria ds es <= 0 ->
  compareCriteria cs es <= 0.
Proof.
  unfold keys_ok. intros Hc. revert ds es.
  induction Hc as [|t c ts' cs Hc _ IH]; intros ds es Hd He;
    inversion Hd as [|? d ? ds' Hd1 Hd2]; subst;
    inversion He as [|? e ? es' He1 He2]; subst; simpl; [lia|].
  destruct (Z.eqb_spec (compareAscending c d) 0) as [E1|E1].
  - apply (compareAscending_eq t) in E1; auto. subst d.
    destruct (Z.eqb_spec (compareAscending c e) 0); [eauto|lia].
  - destruct (Z.eqb_spec (compareAscending d e) 0) as [E2|E2].
    + apply (compareAscending_eq t) in E2; auto. subst e.
      destruct (Z.eqb_spec (compareAscending c d) 0); [lia|]. lia.
    + intros H1 H2.
      pose proof (compareAscending_trans t c d e Hc Hd1 He1 H1 H2) as H3.
      destruct (Z.eqb_spec (compareAscending c e) 0) as [E3|E3]; [|exact H3].
      apply (compareAscending_eq t) in E3; auto. subst e.
      rewrite (compareAscending_antisym t c d) in H2 by assumption. lia.
Qed.

Lemma compareMultiple_total (a b : entry) :
  entry_ok ts a -> entry_ok ts b -> compareMultiple a b <= 0 \/ compareMultiple b a <= 0.
Proof.
  unfold entry_ok, compareMultiple. intros Ha Hb.
  rewrite (compareCriteria_antisym _ _ Ha Hb).
  destruct (Z.eqb_spec (compareCriteria (criteria a) (criteria b)) 0) as [E|E].
  - rewrite E. simpl. lia.
  - destruct (Z.eqb_spec (- compareCriteria (criteria a) (criteria b)) 0); lia.
Qed.

Lemma compareMultiple_trans (a b c : entry) :
  entry_ok ts a -> entry_ok ts b -> entry_ok ts c ->
  compareMultiple a b <= 0 -> compareMultiple b c <= 0 -> compareMultiple a c <= 0.
Proof.
  unfold entry_ok, compareMultiple. intros Ha Hb Hc.
  destruct (Z.eqb_spec (compareCriteria (criteria a) (criteria b)) 0) as [E1|E1].
  - apply compareCriteria_eq in E1; auto. rewrite E1.
    destruct (Z.eqb_spec (compareCriteria (criteria b) (criteria c)) 0); lia.
  - destruct (Z.eqb_spec (compareCriteria (criteria b) (criteria c)) 0) as [E2|E2].
    + apply compareCriteria_eq in E2; auto. rewrite <- E2.
      destruct (Z.eqb_spec (compareCriteria (criteria a) (criteria b)) 0); lia.
    + intros H1 H2.
      pose proof (compareCriteria_trans _ _ _ Ha Hb Hc H1 H2) as H3.
      destruct (Z.eqb_spec (compareCriteria (criteria a) (criteria c)) 0) as [E3|E3];
        [|exact H3].
      apply compareCriteria_eq in E3; auto. rewrite <- E3 in H2.
      rewrite (compareCriteria_antisym _ _ Ha Hb) in H2. lia.
Qed.

(** Two entries that each come first are the same entry, as soon as the
    arrival index tells entries apart. *)
Lemma compareMultiple_antisym (a b : entry) :
  entry_ok ts a -> entry_ok ts b -> (index a = index b -> a = b) ->
  compareMultiple a b <= 0 -> compareMultiple b a <= 0 -> a = b.
Proof.
  unfold entry_ok, compareMultiple. intros Ha Hb Hidx.
  rewrite (compareCriteria_antisym _ _ Ha Hb).
  destruct (Z.eqb_spec (compareCriteria (criteria a) (criteria b)) 0) as [E|E].
  - rewrite E. simpl. intros. apply Hidx. lia.
  - destruct (Z.eqb_spec (- compareCriteria (criteria a) (criteria b)) 0); lia.
Qed.
End TypedKeys.

(** ** The normaliser *)

Lemma assoc_omit (k : string) (r : record) (paths : list string) :
  existsb (String.eqb k) paths = false -> assoc k (omit r paths) = assoc k r.
Proof.
  intros Hk. induction r as [|[k' v] r IH]; simpl; [reflexivity|].
  destruct (String.eqb_spec k' k) as [->|Hne].
  - rewrite Hk. simpl. now rewrite String.eqb_refl.
  - destruct (existsb (String.eqb k') paths); simpl; [exact IH|].
    destruct (String.eqb_spec k' k); [contradiction|exact IH].
Qed.

Lemma assoc_omit_self (k : string) (r : record) (paths : list string) :
  existsb (String.eqb k) paths = true -> assoc k (omit r paths) = None.
Proof.
  intros Hk. induction r as [|[k' v] r IH]; simpl; [reflexivity|].
  destruct (existsb (String.eqb k') paths) eqn:E; simpl; [exact IH|].
  destruct (String.eqb_spec k' k) as [->|Hne]; [congruence|exact IH].
Qed.

(** Erasing the identifier changes none of the sort keys. *)
Lemma keyTuple_omitID (r : record) : keyTuple (omitID r) = keyTuple r.
Proof.
  unfold keyTuple, omitID, sortKeys, property, hasKey, pathName. simpl.
  now rewrite !assoc_omit by reflexivity.
Qed.

Lemma toEntries_value (iteratees : list (list string)) (n : Z) (l : list record) :
  List.map value (toEntries iteratees n l) = l.
Proof.
  revert n. induction l as [|r l IH]; intros n; simpl; [reflexivity|].
  now rewrite IH.
Qed.

Lemma toEntries_criteria (iteratees : list (list string)) (n : Z) (l : list record) (e : entry) :
  In e (toEntries iteratees n l) ->
  In (value e) l /\ n <= index e /\
  criteria e = List.map (fun iteratee => property iteratee (value e)) iteratees.
Proof.
  revert n. induction l as [|r l IH]; intros n; simpl; [tauto|].
  intros [<-|He]; simpl.
  - split; [now left|]. split; [lia|reflexivity].
  - destruct (IH _ He) as (H1 & H2 & H3). split; [now right|]. split; [lia|exact H3].
Qed.

Lemma toEntries_sorted (iteratees : list (list string)) (n : Z) (l : list record) :
  StronglySorted (fun a b => index a < index b) (toEntries iteratees n l).
Proof.
  revert n. induction l as [|r l IH]; intros n; simpl; constructor; [apply IH|].
  rewrite List.Forall_forall. intros e He.
  apply toEntries_criteria in He as (_ & He & _). simpl. lia.
Qed.

Lemma toEntries_index_inj (iteratees : list (list string)) (n : Z) (l : list record)
    (a b : entry) :
  In a (toEntries iteratees n l) -> In b (toEntries iteratees n l) ->
  index a = index b -> a = b.
Proof.
  revert n. induction l as [|r l IH]; intros n; simpl; [tauto|].
  intros [<-|Ha] [<-|Hb]; simpl; intros Hi.
  - reflexivity.
  - apply toEntries_criteria in Hb as (_ & Hb & _). lia.
  - apply toEntries_criteria in Ha as (_ & Ha & _). lia.
  - eapply IH; eauto.
Qed.

Section NormalizeTyped.
Context (ts : list column) (result : list record).
Hypothesis result_ok : List.Forall (fun r => keys_ok ts (keyTuple r)) result.

Local Abbreviation es := (entriesOf result).
Local Abbreviation sorted := (sortedEntries result).

Lemma normalize_unfold : normalize result = List.map value sorted.
Proof. reflexivity. Qed.

Lemma es_ok (e : entry) : In e es -> entry_ok ts e /\ criteria e = keyTuple (value e).
Proof using result_ok.
  intros He. apply toEntries_criteria in He as (Hv & _ & Hc).
  split; [|exact Hc]. unfold entry_ok. rewrite Hc.
  apply List.in_map_iff in Hv as (r & <- & Hr).
  rewrite List.Forall_forall in result_ok.
  fold (keyTuple (omitID r)). rewrite keyTuple_omitID. auto.
Qed.

Lemma sorted_in (e : entry) : In e sorted <-> In e es.
Proof.
  split; apply Permutation_in; [|symmetry]; apply arraySort_Permutation.
Qed.

Lemma sorted_entries : StronglySorted (fun a b => compareMultiple a b <= 0) sorted.
Proof using result_ok.
  apply (arraySort_sorted compareMultiple (fun e => In e es)).
  - intros a b Ha Hb. apply (compareMultiple_total ts); now apply es_ok.
  - intros a b c Ha Hb Hc. apply (compareMultiple_trans ts); now apply es_ok.
  - now rewrite List.Forall_forall.
Qed.

Lemma compareMultiple_criteria (a b : entry) :
  compareMultiple a b <= 0 -> compareCriteria (criteria a) (criteria b) <= 0.
Proof.
  unfold compareMultiple.
  destruct (Z.eqb_spec (compareCriteria (criteria a) (criteria b)) 0); lia.
Qed.

Lemma normalize_Permutation : Permutation (normalize result) (List.map omitID result).
Proof.
  rewrite normalize_unfold. unfold sorted.
  rewrite (Permutation_map value (arraySort_Permutation compareMultiple es)).
  unfold es. now rewrite toEntries_value.
Qed.

Lemma normalize_ascending :
  StronglySorted (fun a b => compareCriteria (keyTuple a) (keyTuple b) <= 0)
                 (normalize result).
Proof using result_ok.
  rewrite normalize_unfold. apply StronglySorted_map.
  eapply StronglySorted_weaken; [|apply sorted_entries].
  intros a b Ha Hb Hab. apply sorted_in in Ha, Hb.
  destruct (es_ok a Ha) as [_ <-]. destruct (es_ok b Hb) as [_ <-].
  now apply compareMultiple_criteria.
Qed.

(** Stability: the records of one key tuple leave in the order they came. *)
Lemma normalize_stable (cs : list (option json)) :
  keys_ok ts cs ->
  List.filter (fun r => compareCriteria cs (keyTuple r) =? 0) (normalize result) =
  List.filter (fun r => compareCriteria cs (keyTuple r) =? 0) (List.map omitID result).
Proof using result_ok.
  intros Hcs. rewrite normalize_unfold.
  rewrite <- (toEntries_value sortKeys 0 (List.map omitID result)). fold es.
  rewrite !List.filter_map_swap. f_equal.
  set (g := fun e : entry => compareCriteria cs (keyTuple (value e)) =? 0).
  assert (Hclass : forall e, In e (List.filter g es) -> In e es /\ criteria e = cs).
  { intros e He. apply List.filter_In in He as [He Hg]. split; [exact He|].
    destruct (es_ok e He) as [Hok Hc]. unfold g in Hg. rewrite <- Hc in Hg.
    apply Z.eqb_eq in Hg. symmetry. eapply compareCriteria_eq; eauto. }
  apply (sorted_Permutation_unique (fun a b => compareMultiple a b <= 0)).
  - intros a b Ha Hb. apply List.filter_In in Ha as [Ha _], Hb as [Hb _].
    apply sorted_in in Ha, Hb.
    apply (compareMultiple_antisym ts); try now apply es_ok.
    now apply (toEntries_index_inj sortKeys 0 (List.map omitID result)).
  - apply StronglySorted_filter, sorted_entries.
  - eapply StronglySorted_weaken;
      [|apply StronglySorted_filter, (toEntries_sorted sortKeys 0 (List.map omitID result))].
    intros a b Ha Hb Hlt.
    destruct (Hclass a Ha) as [_ Hca]. destruct (Hclass b Hb) as [_ Hcb].
    unfold compareMultiple. rewrite Hca, Hcb, (compareCriteria_refl ts cs Hcs).
    change (index a - index b <= 0). cbv beta in Hlt. lia.
  - apply filter_Permutation_bool, arraySort_Permutation.
Qed.
End NormalizeTyped.

Lemma compareCriteria_prefix (ts : list column) (p cs ds : list (option json)) :
  Forall2 crit_ok ts p ->
  compareCriteria (p ++ cs)%list (p ++ ds)%list = compareCriteria cs ds.
Proof.
  induction 1 as [|t c ts' p Hc _ IH]; simpl; [reflexivity|].
  now rewrite (compareAscending_refl t c Hc).
Qed.

Lemma StronglySorted_precedes {A : Type} (R : A -> A -> Prop) (l1 l2 l3 : list A) (a b : A) :
  StronglySorted R (l1 ++ a :: l2 ++ b :: l3)%list -> R a b.
Proof.
  induction l1 as [|x l1 IH]; simpl; intros Hs; apply StronglySorted_inv in Hs as [Hs Hx].
  - rewrite List.Forall_forall in Hx. apply Hx, List.in_or_app. right. now left.
  - auto.
Qed.

(** ** C8: the identifier is erased and nothing else changes *)

(** C8.  For every list of hits, the normaliser's output is a rearrangement
    of the hits with [objectID] omitted: no output record has an [objectID]
    property, and omitting keeps every other property of a hit with its
    value. *)
Theorem normalize_erases_objectID (result : list record) :
  Permutation (normalize result) (List.map omitID result)
  /\ List.Forall (fun r => assoc "objectID" r = None) (normalize result)
  /\ (forall (r : record) (k : string),
        k <> "objectID" -> assoc k (omitID r) = assoc k r).
Proof.
  split; [apply normalize_Permutation|]. split.
  - rewrite List.Forall_forall. intros r Hr.
    apply (Permutation_in _ (normalize_Permutation result)) in Hr.
    apply List.in_map_iff in Hr as (r0 & <- & _).
    now apply assoc_omit_self.
  - intros r k Hk. apply assoc_omit. simpl.
    destruct (String.eqb_spec k "objectID"); [contradiction|reflexivity].
Qed.

Lemma normalize_erases_objectID_witness :
  Permutation (normalize [hitNoUrl; hitIntro]) (List.map omitID [hitNoUrl; hitIntro])
  /\ List.Forall (fun r => assoc "objectID" r = None) (normalize [hitNoUrl; hitIntro])
  /\ assoc "url" (omitID hitIntro) = assoc "url" hitIntro.
Proof.
  destruct (normalize_erases_objectID [hitNoUrl; hitIntro]) as (H1 & H2 & H3).
  split; [exact H1|]. split; [exact H2|].
  apply (H3 hitIntro "url"). discriminate.
Defined.

(** ** C2: what the order of the output depends on *)

(** C2, at an input where the code departs from it: two hits with the same
    key tuple and different content.  The two arrival orders hold the same
    records, and the normaliser returns them in two different orders. *)
Theorem normalize_depends_on_arrival_order :
  Permutation [hitFirst; hitSecond] [hitSecond; hitFirst]
  /\ keyTuple hitFirst = keyTuple hitSecond
  /\ normalize [hitFirst; hitSecond] = [omitID hitFirst; omitID hitSecond]
  /\ normalize [hitSecond; hitFirst] = [omitID hitSecond; omitID hitFirst]
  /\ normalize [hitFirst; hitSecond] <> normalize [hitSecond; hitFirst].
Proof.
  split; [apply perm_swap|]. split; [reflexivity|].
  split; [reflexivity|]. split; [reflexivity|]. discriminate.
Qed.

(** Where no two different records share a key tuple, the output does not
    depend on the arrival order. *)
Lemma normalize_deterministic_on_distinct_keys (ts : list column) (r1 r2 : list record) :
  List.Forall (fun r => keys_ok ts (keyTuple r)) r1 ->
  (forall a b, In a r1 -> In b r1 -> keyTuple a = keyTuple b -> omitID a = omitID b) ->
  Permutation r1 r2 ->
  normalize r1 = normalize r2.
Proof.
  intros Hok Hinj Hp.
  assert (Hok2 : List.Forall (fun r => keys_ok ts (keyTuple r)) r2).
  { rewrite List.Forall_forall in Hok |- *. intros r Hr.
    apply Hok, (Permutation_in _ (Permutation_sym Hp)), Hr. }
  apply (sorted_Permutation_unique
           (fun a b => compareCriteria (keyTuple a) (keyTuple b) <= 0)).
  - intros a b Ha Hb Hab Hba.
    apply (Permutation_in _ (normalize_Permutation r1)) in Ha, Hb.
    apply List.in_map_iff in Ha as (a0 & <- & Ha), Hb as (b0 & <- & Hb).
    rewrite !keyTuple_omitID in Hab, Hba.
    rewrite List.Forall_forall in Hok.
    apply Hinj; auto.
    apply (compareCriteria_eq ts); auto.
    rewrite (compareCriteria_antisym ts (keyTuple a0) (keyTuple b0)) in Hba by auto.
    lia.
  - now apply (normalize_ascending ts).
  - now apply (normalize_ascending ts).
  - rewrite (normalize_Permutation r1), (normalize_Permutation r2).
    now apply Permutation_map.
Qed.

(** ** C3: the order of the sort *)

(** C3 as stated fails: a hit without [url] is sorted after a hit that has
    one, although it arrived first. *)
Lemma normalize_missing_key_not_first :
  normalize [hitNoUrl; hitIntro] = [omitID hitIntro; omitID hitNoUrl]
  /\ property ["url"] (omitID hitNoUrl) = None
  /\ property ["url"] (omitID hitIntro) = Some (JStr "https://docs.example/intro").
Proof. repeat split. Qed.

(** C3, amended.  On hits whose keys are typed (each key column holds
    strings or numbers, [null] or nothing), the output is a rearrangement of
    the hits without their identifier that is ascending on the key tuple
    (url, hierarchy.lvl0 ... lvl6, weight.position) compared key by key with
    [compareAscending], in which a missing key ranks after every present
    value: a record that lacks a key never precedes a record that has it and
    agrees with it on all earlier keys.  The sort is stable: the records of
    one key tuple keep their arrival order. *)
Theorem normalize_ascending_missing_last_stable (ts : list column) (result : list record) :
  List.Forall (fun r => keys_ok ts (keyTuple r)) result ->
  Permutation (normalize result) (List.map omitID result)
  /\ StronglySorted (fun a b => compareCriteria (keyTuple a) (keyTuple b) <= 0)
                    (normalize result)
  /\ (forall v, compareAscending None (Some v) = 1 /\ compareAscending (Some v) None = -1)
  /\ (forall (p ra rb : list (option json)) (v : json) (a b : record)
             (l1 l2 l3 : list record),
        keyTuple a = (p ++ None :: ra)%list -> keyTuple b = (p ++ Some v :: rb)%list ->
        normalize result <> (l1 ++ a :: l2 ++ b :: l3)%list)
  /\ (forall cs, keys_ok ts cs ->
        List.filter (fun r => compareCriteria cs (keyTuple r) =? 0) (normalize result) =
        List.filter (fun r => compareCriteria cs (keyTuple r) =? 0) (List.map omitID result)).
Proof.
  intros Hok.
  split; [apply normalize_Permutation|].
  split; [now apply (normalize_ascending ts)|].
  split; [apply compareAscending_missing_last|].
  split; [|intros cs Hcs; now apply (normalize_stable ts)].
  intros p ra rb v a b l1 l2 l3 Ha Hb Heq.
  pose proof (normalize_ascending ts result Hok) as Hs.
  rewrite Heq in Hs. apply StronglySorted_precedes in Hs.
  assert (Hin : In a (normalize result)).
  { rewrite Heq. apply List.in_or_app. right. now left. }
  apply (Permutation_in _ (normalize_Permutation result)) in Hin.
  apply List.in_map_iff in Hin as (a0 & <- & Ha0).
  rewrite List.Forall_forall in Hok. specialize (Hok a0 Ha0).
  rewrite <- (keyTuple_omitID a0), Ha in Hok. unfold keys_ok in Hok.
  apply Forall2_app_inv_r in Hok as (ts1 & ts2 & Hp & _ & _).
  rewrite Ha, Hb, (compareCriteria_prefix ts1) in Hs by exact Hp.
  cbn [compareCriteria] in Hs.
  destruct (compareAscending_missing_last v) as [Hv _]. rewrite Hv in Hs.
  simpl in Hs. lia.
Qed.

Lemma normalize_ascending_missing_last_stable_witness :
  Permutation (normalize [hitNoUrl; hitIntroNext; hitIntro])
              (List.map omitID [hitNoUrl; hitIntroNext; hitIntro])
  /\ normalize [hitNoUrl; hitIntroNext; hitIntro]
     <> ([] ++ omitID hitNoUrl :: [omitID hitIntro] ++ omitID hitIntroNext :: [])%list.
Proof.
  assert (Hok : List.Forall (fun r => keys_ok docColumns (keyTuple r))
                            [hitNoUrl; hitIntroNext; hitIntro]).
  { repeat constructor. }
  destruct (normalize_ascending_missing_last_stable docColumns _ Hok)
    as (H1 & _ & _ & H4 & _).
  split; [exact H1|].
  apply (H4 [] (List.tl (keyTuple hitNoUrl)) (List.tl (keyTuple hitIntroNext))
            (JStr "https://docs.example/intro"));
    reflexivity.
Defined.

(** ** Strings *)

Lemma append_cons (a : ascii) (s t : string) : String a s +:+ t = String a (s +:+ t).
Proof. reflexivity. Qed.

Lemma append_nil_l (t : string) : "" +:+ t = t.
Proof. reflexivity. Qed.

Lemma append_assoc (s t u : string) : (s +:+ t) +:+ u = s +:+ (t +:+ u).
Proof.
  induction s as [|a s IH]; rewrite ?append_cons, ?append_nil_l; simpl;
    [reflexivity|congruence].
Qed.

Lemma length_append (s t : string) :
  String.length (s +:+ t) = (String.length s + String.length t)%nat.
Proof.
  induction s as [|a s IH]; rewrite ?append_cons, ?append_nil_l; simpl;
    [reflexivity|congruence].
Qed.

Lemma substring_all (s : string) : substring 0 (String.length s) s = s.
Proof.
  induction s as [|a s IH]; rewrite ?append_cons, ?append_nil_l; simpl;
    [reflexivity|congruence].
Qed.

Lemma substring_prefix (s t : string) : substring 0 (String.length s) (s +:+ t) = s.
Proof.
  induction s as [|a s IH]; rewrite ?append_cons, ?append_nil_l; simpl; [now destruct t|congruence].
Qed.

Lemma substring_suffix (s t : string) :
  substring (String.length s) (String.length t) (s +:+ t) = t.
Proof.
  induction s as [|a s IH]; rewrite ?append_cons, ?append_nil_l; simpl;
    [apply substring_all|exact IH].
Qed.

Lemma endsWith_append (s t : string) : endsWith (s +:+ t) t = true.
Proof.
  unfold endsWith. rewrite length_append.
  replace (String.length s + String.length t - String.length t)%nat
    with (String.length s) by lia.
  rewrite substring_suffix, String.eqb_refl.
  destruct (Nat.leb_spec (String.length t) (String.length s + String.length t));
    [reflexivity|lia].
Qed.

Lemma append_inj_r (s s' t : string) : s +:+ t = s' +:+ t -> s = s'.
Proof.
  intros H.
  assert (Hlen : String.length s = String.length s').
  { apply (f_equal String.length) in H. rewrite !length_append in H. lia. }
  rewrite <- (substring_prefix s t), <- (substring_prefix s' t), H, Hlen. reflexivity.
Qed.

(** Two ways of cutting one string: the shorter tail ends the longer. *)
Lemma append_eq_suffix (s s' t t' : string) :
  s +:+ t = s' +:+ t' -> (String.length t <= String.length t')%nat ->
  substring (String.length t' - String.length t) (String.length t) t' = t.
Proof.
  revert s. induction s' as [|b s' IH]; intros s H Hlen.
  - rewrite append_nil_l in H. subst t'. rewrite length_append.
    replace (String.length s + String.length t - String.length t)%nat
      with (String.length s) by lia.
    apply substring_suffix.
  - destruct s as [|a s].
    + rewrite append_nil_l in H. subst t. rewrite append_cons in Hlen.
      simpl in Hlen. rewrite length_append in Hlen. lia.
    + rewrite !append_cons in H. injection H as _ H. eauto.
Qed.

Lemma includes_append (c : ascii) (s t : string) :
  includes c (s +:+ t) = includes c s || includes c t.
Proof.
  induction s as [|a s IH]; rewrite ?append_cons, ?append_nil_l; simpl; [reflexivity|].
  rewrite IH. now rewrite orb_assoc.
Qed.

Lemma split_cons (c : ascii) (s : string) : exists seg segs, split c s = seg :: segs.
Proof.
  induction s as [|a s (seg & segs & IH)]; simpl; [eauto|].
  rewrite IH. destruct (Ascii.eqb a c); eauto.
Qed.

Lemma split_without (c : ascii) (s : string) : includes c s = false -> split c s = [s].
Proof.
  induction s as [|a s IH]; rewrite ?append_cons, ?append_nil_l; simpl; [reflexivity|].
  destruct (Ascii.eqb a c); simpl; [discriminate|].
  intros H. now rewrite (IH H).
Qed.

Lemma split_single (c : ascii) (s x : string) : split c s = [x] -> includes c s = false.
Proof.
  revert x. induction s as [|a s IH]; intros x; simpl; [reflexivity|].
  destruct (split_cons c s) as (seg & segs & E). rewrite E.
  destruct (Ascii.eqb a c); simpl; [discriminate|].
  intros H. injection H as _ ->. rewrite E in IH. eauto.
Qed.

Lemma split_append (c : ascii) (s t : string) :
  split c (s +:+ String c t) = (split c s ++ split c t)%list.
Proof.
  induction s as [|a s IH]; rewrite ?append_cons, ?append_nil_l; simpl.
  - destruct (split_cons c t) as (seg & segs & ->). now rewrite Ascii.eqb_refl.
  - rewrite IH. destruct (split_cons c s) as (seg & segs & ->). simpl.
    now destruct (Ascii.eqb a c).
Qed.

Lemma join_cons (c : ascii) (a : ascii) (seg : string) (segs : list string) :
  join (String c "") (String a seg :: segs) = String a (join (String c "") (seg :: segs)).
Proof. unfold join. simpl. now destruct segs. Qed.

Lemma join_split (c : ascii) (s : string) : join (String c "") (split c s) = s.
Proof.
  induction s as [|a s IH]; rewrite ?append_cons, ?append_nil_l; simpl; [reflexivity|].
  destruct (split_cons c s) as (seg & segs & E). rewrite E in *.
  destruct (Ascii.eqb_spec a c) as [->|Hne].
  - unfold join in *. simpl in *. now rewrite IH.
  - now rewrite join_cons, IH.
Qed.

Lemma substring_split (n : nat) (s : string) :
  (n <= String.length s)%nat ->
  s = substring 0 n s +:+ substring n (String.length s - n) s.
Proof.
  revert s. induction n as [|n IH]; intros s Hn.
  - rewrite Nat.sub_0_r, substring_all. now destruct s.
  - destruct s as [|a s]; simpl in Hn; [lia|].
    simpl. rewrite append_cons. f_equal. apply IH. lia.
Qed.

(** [endsWith] holds exactly of the strings that are something followed by
    the target. *)
Lemma endsWith_iff (str target : string) :
  endsWith str target = true <-> exists x, str = x +:+ target.
Proof.
  split.
  - unfold endsWith. intros H. apply andb_true_iff in H as [Hlen Heq].
    apply Nat.leb_le in Hlen. apply String.eqb_eq in Heq.
    exists (substring 0 (String.length str - String.length target) str).
    pose proof (substring_split (String.length str - String.length target) str) as Hs.
    replace (String.length str - (String.length str - String.length target))%nat
      with (String.length target) in Hs by lia.
    rewrite Heq in Hs. apply Hs. lia.
  - intros [x ->]. apply endsWith_append.
Qed.

(** ** C10: the file name of a pair and its parse *)

Lemma basename_indices (stem : string) :
  stem <> "" -> includes "/" stem = false ->
  basename (indicesDir +:+ stem +:+ ".json") ".json" = stem.
Proof.
  intros Hstem Hs. unfold basename, indicesDir.
  change ("./dist/indices/" +:+ stem +:+ ".json")
    with ("." +:+ String "/" ("dist" +:+ String "/" ("indices" +:+ String "/" (stem +:+ ".json")))).
  rewrite !split_append.
  rewrite (split_without "/" (stem +:+ ".json"))
    by (rewrite includes_append, Hs; reflexivity).
  cbn [split List.app List.last]. simpl List.last.
  rewrite endsWith_append.
  assert (Hne : String.eqb (stem +:+ ".json") ".json" = false).
  { apply String.eqb_neq. intros H. apply (f_equal String.length) in H.
    rewrite length_append in H. simpl in H.
    assert (String.length stem = 0)%nat as H0 by lia.
    destruct stem; [congruence|discriminate]. }
  rewrite Hne. simpl andb. cbv iota.
  rewrite length_append. simpl String.length.
  replace (String.length stem + 5 - 5)%nat with (String.length stem) by lia.
  apply substring_prefix.
Qed.

Lemma indexFilePath_stem (indexName appName : string) :
  indexFilePath indexName appName
  = indicesDir +:+ (indexName +:+ String "-" appName) +:+ ".json".
Proof. unfold indexFilePath, indicesDir. now rewrite !append_assoc. Qed.

Lemma parseFilepath_stem (indexName appName : string) :
  includes "/" indexName = false ->
  includes "/" appName = false -> includes "-" appName = false ->
  parseFilepath (indexFilePath indexName appName) = Parsed appName indexName.
Proof.
  intros Hi Ha Hd. unfold parseFilepath.
  rewrite indexFilePath_stem, basename_indices.
  - rewrite split_append, (split_without "-" appName Hd).
    unfold dropRight1. rewrite List.last_last, List.removelast_last.
    now rewrite (join_split "-" indexName).
  - intros H. apply (f_equal String.length) in H. rewrite length_append in H.
    simpl in H. lia.
  - rewrite includes_append. simpl. now rewrite Hi, Ha.
Qed.

(** C10 as stated fails on an index name with a path separator:
    [path.basename] keeps the part after the last ['/'] only. *)
Lemma parseFilepath_loses_directory :
  parseFilepath (indexFilePath "team/docs" "mesos") = Parsed "mesos" "docs"
  /\ parseFilepath (indexFilePath "team/docs" "mesos") <> Parsed "mesos" "team/docs".
Proof. split; [reflexivity|discriminate]. Qed.

(** C10, amended.  For every index name without ['/'] (it may contain ['-'])
    and each of the two accounts, parsing the file name of the pair gives the
    pair back: the last segment is the account and the joined remainder is
    the index name. *)
Theorem parseFilepath_indexFilePath (indexName appName : string) :
  In appName apps -> includes "/" indexName = false ->
  parseFilepath (indexFilePath indexName appName) = Parsed appName indexName.
Proof.
  intros Happ Hi. apply parseFilepath_stem; [exact Hi| |];
    destruct Happ as [<-|[<-|[]]]; reflexivity.
Qed.

Lemma parseFilepath_indexFilePath_witness :
  parseFilepath (indexFilePath "docs-v2" "kubernetes") = Parsed "kubernetes" "docs-v2".
Proof.
  apply (parseFilepath_indexFilePath "docs-v2" "kubernetes").
  - simpl. auto.
  - reflexivity.
Defined.

(** Two pairs never share a file. *)
Lemma indexFilePath_inj (i i' a a' : string) :
  In a apps -> In a' apps -> indexFilePath i a = indexFilePath i' a' -> i = i' /\ a = a'.
Proof.
  intros Ha Ha' H. unfold indexFilePath in H.
  apply (String.app_inj "./dist/indices/") in H.
  destruct Ha as [<-|[<-|[]]]; destruct Ha' as [<-|[<-|[]]].
  - split; [|reflexivity]. now apply append_inj_r in H.
  - apply append_eq_suffix in H; [|apply Nat.leb_le; reflexivity].
    vm_compute in H. discriminate.
  - symmetry in H. apply append_eq_suffix in H; [|apply Nat.leb_le; reflexivity].
    vm_compute in H. discriminate.
  - split; [|reflexivity]. now apply append_inj_r in H.
Qed.

(** ** The index-list fetcher *)

Lemma isFile_None (filePath : string) (w : world) :
  files w !! filePath = None -> isFile filePath w = (Ok false, w).
Proof.
  intros H. unfold isFile. rewrite H.
  rewrite bool_decide_false; [reflexivity|]. intros [x Hx]. discriminate.
Qed.

Lemma isFile_Some (filePath : string) (content : blob) (w : world) :
  files w !! filePath = Some content -> isFile filePath w = (Ok true, w).
Proof.
  intros H. unfold isFile. rewrite H.
  rewrite bool_decide_true; [reflexivity|]. eauto.
Qed.

Lemma keptIndices_no_tmp (items : list IndexItem) :
  List.Forall (fun index => endsWith (name index) "_tmp" = false) (keptIndices items).
Proof.
  rewrite List.Forall_forall. intros index Hin.
  apply List.filter_In in Hin as [_ Hin]. now apply negb_true_iff in Hin.
Qed.

Section Fetcher.
Context (remote : service).

(** With the cache file in place the list is read and nothing else
    happens. *)
Lemma downloadIndexList_cached (appName : string) (list : list IndexSummary) (w : world) :
  files w !! appFilePath appName = Some (IndexListFile list) ->
  downloadIndexList remote appName w = (Ok list, w).
Proof.
  intros H. unfold downloadIndexList, await. fold (appFilePath appName).
  rewrite (isFile_Some _ _ _ H). unfold readIndexList. now rewrite H.
Qed.

(** A fulfilled call without a cache file asked the remote service once,
    kept the indices that are not temporary and stored them. *)
Lemma downloadIndexList_fresh_inv (appName : string) (w w1 : world)
    (indexData : list IndexSummary) :
  files w !! appFilePath appName = None ->
  downloadIndexList remote appName w = (Ok indexData, w1) ->
  exists items,
    listIndexes remote appName = inr items
    /\ indexData = keptIndices items
    /\ files w1 = <[appFilePath appName := IndexListFile indexData]> (files w)
    /\ trace w1 = (trace w ++ [CallListIndexes appName; WriteFile (appFilePath appName)])%list.
Proof.
  intros Hnone. unfold downloadIndexList, await. fold (appFilePath appName).
  rewrite (isFile_None _ _ Hnone). unfold getClient.
  destruct (negb (bool_decide (appName ∈ apps))); [discriminate|].
  destruct (bool_decide (appName ∈ clients w));
    [|destruct (credentials remote appName); [|discriminate]];
    (unfold logEvent; simpl;
     destruct (listIndexes remote appName) as [message|items]; [discriminate|];
     unfold writeBlob, resolve; simpl; intros H; injection H as <- <-;
     exists items; simpl; rewrite <- List.app_assoc; auto).
Qed.

Lemma downloadIndexList_fresh (appName : string) (items : list IndexItem) (w : world) :
  In appName apps -> credentials remote appName = true ->
  files w !! appFilePath appName = None ->
  listIndexes remote appName = inr items ->
  exists w1,
    downloadIndexList remote appName w = (Ok (keptIndices items), w1)
    /\ files w1 = <[appFilePath appName := IndexListFile (keptIndices items)]> (files w)
    /\ trace w1 = (trace w ++ [CallListIndexes appName; WriteFile (appFilePath appName)])%list.
Proof.
  intros Happ Hcred Hnone Hitems.
  unfold downloadIndexList, await. fold (appFilePath appName).
  rewrite (isFile_None _ _ Hnone). unfold getClient.
  rewrite bool_decide_true by (now apply list_elem_of_In). simpl negb. cbv iota.
  rewrite Hcred.
  destruct (bool_decide (appName ∈ clients w));
    unfold logEvent; simpl; rewrite Hitems; unfold writeBlob, resolve; simpl;
    eexists; (split; [reflexivity|]); simpl; rewrite <- List.app_assoc; auto.
Qed.
End Fetcher.

(** ** C5: the second call reads what the first one stored *)

(** C5.  For a configured account with credentials whose list is not yet
    cached and whose remote listing answers, the first call fulfils with the
    kept indices and stores them; a second call fulfils with the stored
    value and leaves the world as it is.  The trace after both calls holds
    one more [listIndexes] call for the account than before: the first call's,
    followed by its write. *)
Theorem downloadIndexList_twice (remote : service) (appName : string)
    (items : list IndexItem) (w : world) :
  In appName apps -> credentials remote appName = true ->
  files w !! appFilePath appName = None ->
  listIndexes remote appName = inr items ->
  exists indexData w1 w2,
    downloadIndexList remote appName w = (Ok indexData, w1)
    /\ files w1 !! appFilePath appName = Some (IndexListFile indexData)
    /\ downloadIndexList remote appName w1 = (Ok indexData, w2)
    /\ w2 = w1
    /\ trace w2 = (trace w ++ [CallListIndexes appName; WriteFile (appFilePath appName)])%list
    /\ listCalls appName (trace w2) = S (listCalls appName (trace w)).
Proof.
  intros Happ Hcred Hnone Hitems.
  destruct (downloadIndexList_fresh remote appName items w Happ Hcred Hnone Hitems)
    as (w1 & H1 & Hf & Ht).
  exists (keptIndices items), w1, w1.
  assert (Hfile : files w1 !! appFilePath appName = Some (IndexListFile (keptIndices items))).
  { rewrite Hf. apply lookup_insert_eq. }
  split; [exact H1|]. split; [exact Hfile|].
  split; [now apply downloadIndexList_cached|]. split; [reflexivity|].
  split; [exact Ht|].
  unfold listCalls. rewrite Ht, List.filter_app, List.length_app. simpl.
  rewrite String.eqb_refl. simpl. lia.
Qed.

Lemma downloadIndexList_twice_witness :
  exists indexData w1 w2,
    downloadIndexList sampleService "mesos" emptyWorld = (Ok indexData, w1)
    /\ files w1 !! appFilePath "mesos" = Some (IndexListFile indexData)
    /\ downloadIndexList sampleService "mesos" w1 = (Ok indexData, w2)
    /\ w2 = w1
    /\ trace w2 = (trace emptyWorld
                   ++ [CallListIndexes "mesos"; WriteFile (appFilePath "mesos")])%list
    /\ listCalls "mesos" (trace w2) = S (listCalls "mesos" (trace emptyWorld)).
Proof.
  apply (downloadIndexList_twice sampleService "mesos"
           [indexItem "foo" 100; indexItem "bar" 50; indexItem "bar_tmp" 7] emptyWorld).
  - simpl. auto.
  - reflexivity.
  - reflexivity.
  - reflexivity.
Defined.

(** ** C7: no temporary index in a returned list *)

(** C7.  A list returned by a fetch that found no cache file holds no
    summary whose name is something followed by [_tmp]; that list is what
    the fetch stored; and in any later world that still holds the stored
    file, the call returns that same list. *)
Theorem downloadIndexList_no_tmp (remote : service) (appName : string) (w w1 : world)
    (indexData : list IndexSummary) :
  files w !! appFilePath appName = None ->
  downloadIndexList remote appName w = (Ok indexData, w1) ->
  (forall index x, In index indexData -> name index <> x +:+ "_tmp")
  /\ files w1 !! appFilePath appName = Some (IndexListFile indexData)
  /\ forall w2 : world,
       files w2 !! appFilePath appName = files w1 !! appFilePath appName ->
       downloadIndexList remote appName w2 = (Ok indexData, w2).
Proof.
  intros Hnone Hcall.
  destruct (downloadIndexList_fresh_inv remote appName w w1 indexData Hnone Hcall)
    as (items & _ & -> & Hf & _).
  assert (Hstored : files w1 !! appFilePath appName
                    = Some (IndexListFile (keptIndices items)))
    by (rewrite Hf; apply lookup_insert_eq).
  split; [|split; [exact Hstored|]].
  - intros index x Hin Hname.
    pose proof (keptIndices_no_tmp items) as Hkept.
    rewrite List.Forall_forall in Hkept. specialize (Hkept index Hin).
    assert (Hends : endsWith (name index) "_tmp" = true)
      by (apply endsWith_iff; now exists x).
    congruence.
  - intros w2 Hw2. apply downloadIndexList_cached. now rewrite Hw2.
Qed.

Lemma downloadIndexList_no_tmp_witness :
  let w1 := snd (downloadIndexList sampleService "mesos" emptyWorld) in
  let indexData := [summary "foo" 100; summary "bar" 50] in
  (forall index x, In index indexData -> name index <> x +:+ "_tmp")
  /\ files w1 !! appFilePath "mesos" = Some (IndexListFile indexData)
  /\ downloadIndexList sampleService "mesos" w1 = (Ok indexData, w1).
Proof.
  intros w1 indexData.
  destruct (downloadIndexList_no_tmp sampleService "mesos" emptyWorld w1 indexData)
    as (H1 & H2 & H3).
  - reflexivity.
  - reflexivity.
  - split; [exact H1|]. split; [exact H2|]. apply H3. reflexivity.
Defined.

(** ** The download orchestrator *)

Section Orchestrator.
Context (remote : service).
Hypothesis credentials_ok : forall a, In a apps -> credentials remote a = true.

Lemma extends_refl (w : world) : extends remote w w.
Proof.
  split; [auto|congruence|]. exists []. split; [now rewrite List.app_nil_r|constructor].
Qed.

Lemma extends_trans (w1 w2 w3 : world) :
  extends remote w1 w2 -> extends remote w2 w3 -> extends remote w1 w3.
Proof.
  intros [K1 N1 (ev1 & T1 & F1)] [K2 N2 (ev2 & T2 & F2)]. split.
  - auto.
  - intros p c Hp Hc. destruct (files w2 !! p) as [c2|] eqn:E2.
    + rewrite (K2 _ _ E2) in Hc. injection Hc as <-. eauto.
    + eauto.
  - exists (ev1 ++ ev2)%list. split; [now rewrite T2, T1, List.app_assoc|].
    apply List.Forall_app. split; [exact F1|].
    eapply List.Forall_impl; [|exact F2].
    intros [a|a i|p]; simpl; [tauto| |].
    + destruct (files w1 !! indexFilePath i a) eqn:E; [|reflexivity].
      rewrite (K1 _ _ E). discriminate.
    + destruct (files w1 !! p) eqn:E; [|reflexivity].
      rewrite (K1 _ _ E). discriminate.
Qed.

Lemma getClient_ok (appName : string) (w : world) :
  In appName apps ->
  exists w', getClient remote appName w = (Ok tt, w')
             /\ files w' = files w /\ trace w' = trace w.
Proof using credentials_ok.
  intros Happ. unfold getClient.
  rewrite bool_decide_true by (now apply list_elem_of_In). simpl negb. cbv iota.
  rewrite (credentials_ok _ Happ).
  destruct (bool_decide (appName ∈ clients w)); eexists; eauto.
Qed.

Lemma downloadPair_cached (indexName appName : string) (content : blob) (w : world) :
  files w !! indexFilePath indexName appName = Some content ->
  downloadPair remote indexName appName w = (Ok tt, w).
Proof.
  intros H. unfold downloadPair, await. now rewrite (isFile_Some _ _ _ H).
Qed.

Lemma downloadPair_fresh (indexName appName : string) (w : world) :
  In appName apps ->
  files w !! indexFilePath indexName appName = None ->
  exists w',
    downloadPair remote indexName appName w = (Ok tt, w')
    /\ files w' = <[indexFilePath indexName appName := downloaded remote indexName appName]> (files w)
    /\ trace w' = (trace w ++ [CallBrowseAll appName indexName;
                               WriteFile (indexFilePath indexName appName)])%list.
Proof using credentials_ok.
  intros Happ Hnone. unfold downloadPair, await.
  rewrite (isFile_None _ _ Hnone). unfold tryCatch, getRecordsFromIndex.
  destruct (getClient_ok appName w Happ) as (w0 & -> & Hf & Ht).
  unfold downloaded, logEvent, writeBlob. simpl.
  destruct (snd (browseAll remote appName indexName)); simpl;
    eexists; (split; [reflexivity|]); simpl; rewrite Hf, Ht, <- List.app_assoc; auto.
Qed.

Lemma downloadPair_extends (indexName appName : string) (w : world) :
  In appName apps ->
  exists w',
    downloadPair remote indexName appName w = (Ok tt, w')
    /\ extends remote w w'
    /\ is_Some (files w' !! indexFilePath indexName appName).
Proof using credentials_ok.
  intros Happ. destruct (files w !! indexFilePath indexName appName) as [c|] eqn:E.
  - exists w. split; [now apply (downloadPair_cached _ _ c)|].
    split; [apply extends_refl|]. rewrite E. eauto.
  - destruct (downloadPair_fresh indexName appName w Happ E) as (w' & Hrun & Hf & Ht).
    exists w'. split; [exact Hrun|]. split.
    + split.
      * intros p c Hp. rewrite Hf. rewrite lookup_insert_ne; [exact Hp|]. congruence.
      * intros p c Hp. rewrite Hf.
        destruct (decide (indexFilePath indexName appName = p)) as [<-|Hne].
        -- rewrite lookup_insert_eq. intros [= <-]. eauto.
        -- rewrite lookup_insert_ne by exact Hne. congruence.
      * eexists. split; [exact Ht|]. repeat constructor; exact E.
    + rewrite Hf, lookup_insert_eq. eauto.
Qed.

(** A sequential [pMap] of steps that each extend the world. *)
Lemma pMap_extends {A : Type} (Q : A -> world -> Prop) (mapper : A -> promise unit)
    (input : list A) :
  (forall x w w', Q x w -> extends remote w w' -> Q x w') ->
  (forall x w, In x input ->
     exists w', mapper x w = (Ok tt, w') /\ extends remote w w' /\ Q x w') ->
  forall w, exists w',
    pMap input mapper w = (Ok tt, w') /\ extends remote w w'
    /\ forall x, In x input -> Q x w'.
Proof.
  intros Hmono. induction input as [|x input IH]; intros Hstep w; simpl.
  - exists w. split; [reflexivity|]. split; [apply extends_refl|tauto].
  - destruct (Hstep x w (or_introl eq_refl)) as (w1 & Hx & E1 & Q1).
    destruct (IH (fun y w0 Hy => Hstep y w0 (or_intror Hy)) w1) as (w2 & Hrest & E2 & Q2).
    exists w2. unfold await. rewrite Hx. split; [exact Hrest|].
    split; [eapply extends_trans; eauto|].
    intros y [<-|Hy]; eauto.
Qed.

Lemma downloadAll_extends (indices : list key) (w : world) :
  exists w',
    downloadAll remote indices w = (Ok tt, w') /\ extends remote w w'
    /\ forall k a, In k indices -> In a apps ->
         is_Some (files w' !! indexFilePath (keyString k) a).
Proof using credentials_ok.
  unfold downloadAll.
  destruct (pMap_extends
              (fun k w' => forall a, In a apps ->
                           is_Some (files w' !! indexFilePath (keyString k) a))
              (fun indexName =>
                 pMap apps (fun appName => downloadPair remote (keyString indexName) appName))
              indices) with (w := w) as (w' & Hrun & Hext & Hq).
  - intros k w1 w2 Hq [K _ _] a Ha. destruct (Hq a Ha) as [c Hc]. rewrite (K _ _ Hc). eauto.
  - intros k w1 _.
    destruct (pMap_extends
                (fun a w' => is_Some (files w' !! indexFilePath (keyString k) a))
                (fun appName => downloadPair remote (keyString k) appName)
                apps) with (w := w1) as (w2 & Hrun & Hext & Hq).
    + intros a w2 w3 [c Hc] [K _ _]. rewrite (K _ _ Hc). eauto.
    + intros a w2 Ha. now apply downloadPair_extends.
    + eauto.
  - exists w'. split; [exact Hrun|]. split; [exact Hext|]. intros k a Hk Ha. now apply Hq.
Qed.
End Orchestrator.

(** Without credentials and without a client, the download of a pair never
    settles: no marker is written and the batch does not go on. *)
Lemma downloadPair_without_credentials (remote : service) (indexName appName : string)
    (w : world) :
  In appName apps -> credentials remote appName = false -> appName ∉ clients w ->
  files w !! indexFilePath indexName appName = None ->
  downloadPair remote indexName appName w = (Pending, w).
Proof.
  intros Happ Hcred Hclient Hnone. unfold downloadPair, await.
  rewrite (isFile_None _ _ Hnone). unfold tryCatch, getRecordsFromIndex, getClient.
  rewrite bool_decide_true by (now apply list_elem_of_In). simpl negb. cbv iota.
  rewrite bool_decide_false by exact Hclient. now rewrite Hcred.
Qed.

(** ** The batch when both accounts have credentials *)

(** With credentials for both accounts, the batch over any list of
    index names is fulfilled, never rejected.  For each pair of a listed
    index and an account: a file that was already there is left as it is,
    and the run holds no browse of that pair and no write of that file;
    otherwise the file holds the marker [ERROR: <message>] when the browse
    of that pair ended in an error, and the normalised records of the pages
    when it ended normally, whatever happened to the other pairs. *)
Theorem downloadAll_isolates_pairs (remote : service) (indices : list key) (w : world) :
  (forall a, In a apps -> credentials remote a = true) ->
  exists w' events,
    downloadAll remote indices w = (Ok tt, w')
    /\ trace w' = (trace w ++ events)%list
    /\ forall indexName appName,
         In indexName (List.map keyString indices) -> In appName apps ->
         let filePath := indexFilePath indexName appName in
         match files w !! filePath with
         | Some content =>
             files w' !! filePath = Some content
             /\ ~ In (CallBrowseAll appName indexName) events
             /\ ~ In (WriteFile filePath) events
         | None =>
             match snd (browseAll remote appName indexName) with
             | Error message =>
                 files w' !! filePath = Some (TextFile ("ERROR: " +:+ message))
             | End =>
                 files w' !! filePath =
                 Some (RecordsFile
                         (normalize (List.concat (fst (browseAll remote appName indexName)))))
             end
         end.
Proof.
  intros Hcred.
  destruct (downloadAll_extends remote Hcred indices w)
    as (w' & Hrun & [K N (events & Ht & Hfresh)] & Hcov).
  exists w', events. split; [exact Hrun|]. split; [exact Ht|].
  intros indexName appName Hi Ha filePath.
  apply List.in_map_iff in Hi as (k & <- & Hk).
  destruct (files w !! filePath) as [content|] eqn:E.
  - split; [now apply K|]. rewrite List.Forall_forall in Hfresh.
    split; intros Hin; apply Hfresh in Hin; simpl in Hin;
      fold filePath in Hin; congruence.
  - destruct (Hcov k appName Hk Ha) as [c Hc]. fold filePath in Hc.
    destruct (N _ _ E Hc) as (i & a & Ha' & Hp & ->).
    apply indexFilePath_inj in Hp as [<- <-]; [|assumption..].
    unfold downloaded in Hc.
    now destruct (snd (browseAll remote appName (keyString k))).
Qed.

Lemma downloadAll_isolates_pairs_witness :
  exists w' events,
    downloadAll sampleService [KeyName "foo"; KeyName "bar"] cachedWorld = (Ok tt, w')
    /\ trace w' = (trace cachedWorld ++ events)%list
    /\ (files w' !! indexFilePath "foo" "mesos" = Some (TextFile "ERROR: earlier run")
        /\ ~ In (CallBrowseAll "mesos" "foo") events
        /\ ~ In (WriteFile (indexFilePath "foo" "mesos")) events)
    /\ files w' !! indexFilePath "bar" "kubernetes"
       = Some (TextFile "ERROR: Index does not exist")
    /\ files w' !! indexFilePath "bar" "mesos"
       = Some (RecordsFile (normalize [hitNoUrl; hitIntroNext; hitIntro])).
Proof.
  destruct (downloadAll_isolates_pairs sampleService [KeyName "foo"; KeyName "bar"] cachedWorld)
    as (w' & events & Hrun & Ht & Hpairs).
  - intros a _. reflexivity.
  - exists w', events. split; [exact Hrun|]. split; [exact Ht|].
    split; [|split].
    + apply (Hpairs "foo" "mesos"); simpl; auto.
    + apply (Hpairs "bar" "kubernetes"); simpl; auto.
    + apply (Hpairs "bar" "mesos"); simpl; auto.
Defined.

(** ** C6: a fetch failure that the batch does not catch *)

(** C6, at the input where the code departs from it.  The store holds the
    two index lists, which differ on [bar], and no artifact; the environment
    has the credentials of mesos only.  The fetch of the pair of [bar] and
    kubernetes fails in [getClient], inside the [async] executor of
    [getRecordsFromIndex], so its promise never settles and the
    [try]/[catch] of the batch sees nothing: the run stays pending after the
    mesos artifact of [bar], no marker is written for kubernetes, and in a
    batch over [bar] and [baz] no pair of [baz] is ever stored, although its
    mesos fetch would succeed.  When the failure is a browse error instead,
    the same batch writes the marker and is fulfilled. *)
Theorem downloadIndicesWithDifferences_unsettled_pair :
  fst (downloadIndicesWithDifferences mesosOnlyService listsWorld) = Pending
  /\ files (snd (downloadIndicesWithDifferences mesosOnlyService listsWorld))
       !! indexFilePath "bar" "mesos"
     = Some (RecordsFile (normalize [hitNoUrl; hitIntroNext; hitIntro]))
  /\ files (snd (downloadIndicesWithDifferences mesosOnlyService listsWorld))
       !! indexFilePath "bar" "kubernetes" = None
  /\ trace (snd (downloadIndicesWithDifferences mesosOnlyService listsWorld))
     = [CallBrowseAll "mesos" "bar"; WriteFile (indexFilePath "bar" "mesos")]
  /\ fst (downloadAll mesosOnlyService [KeyName "bar"; KeyName "baz"] listsWorld) = Pending
  /\ files (snd (downloadAll mesosOnlyService [KeyName "bar"; KeyName "baz"] listsWorld))
       !! indexFilePath "baz" "mesos" = None
  /\ files (snd (downloadAll mesosOnlyService [KeyName "bar"; KeyName "baz"] listsWorld))
       !! indexFilePath "baz" "kubernetes" = None
  /\ fst (downloadIndicesWithDifferences sampleService listsWorld) = Ok tt
  /\ files (snd (downloadIndicesWithDifferences sampleService listsWorld))
       !! indexFilePath "bar" "kubernetes"
     = Some (TextFile "ERROR: Index does not exist").
Proof. repeat split; vm_compute; reflexivity. Qed.

(** ** The content-diff reporter *)

Lemma prefix_append (s t : string) : String.prefix s (s +:+ t) = true.
Proof.
  induction s as [|a s IH]; rewrite ?append_cons, ?append_nil_l; simpl;
    [now destruct t|].
  destruct (ascii_dec a a); [exact IH|congruence].
Qed.

Lemma matchesIndicesGlob_stem (stem : string) :
  matchesIndicesGlob (indicesDir +:+ stem +:+ ".json")
  = match split "/" (stem +:+ ".json") with
    | [_] => negb (String.prefix "." (stem +:+ ".json"))
    | _ => false
    end.
Proof.
  unfold matchesIndicesGlob. rewrite prefix_append.
  rewrite length_append.
  replace (String.length indicesDir + String.length (stem +:+ ".json")
           - String.length indicesDir)%nat
    with (String.length (stem +:+ ".json")) by lia.
  rewrite substring_suffix, endsWith_append. simpl andb.
  now destruct (split "/" (stem +:+ ".json")) as [|? [|? ?]].
Qed.

Lemma scan_listed (w : world) (filePath : string) :
  In filePath (scan w) ->
  is_Some (files w !! filePath) /\ matchesIndicesGlob filePath = true.
Proof.
  unfold scan. intros H. apply List.filter_In in H as [H Hm]. split; [|exact Hm].
  apply List.in_map_iff in H as ([p c] & <- & H).
  apply list_elem_of_In, elem_of_map_to_list in H. simpl. eauto.
Qed.

(** A listed artifact of a pair has an index name without ['/']. *)
Lemma scan_indexFilePath (w : world) (indexName appName : string) :
  In (indexFilePath indexName appName) (scan w) -> includes "/" indexName = false.
Proof.
  intros H. apply scan_listed in H as [_ H].
  rewrite indexFilePath_stem, matchesIndicesGlob_stem in H.
  destruct (split "/" ((indexName +:+ String "-" appName) +:+ ".json"))
    as [|x [|y l]] eqn:E; try discriminate.
  apply split_single in E. rewrite !includes_append in E.
  now destruct (includes "/" indexName).
Qed.

Lemma transformGroups_kubernetes (values : list parsed) (result : groups)
    (indexName : string) :
  In (Parsed "kubernetes" indexName) values \/ In indexName (kubernetes result) ->
  (exists message, transformGroups values result = Throw message)
  \/ (exists indices, transformGroups values result = Ok indices
                      /\ In indexName (kubernetes indices)).
Proof.
  revert result. induction values as [|v values IH]; intros result H; simpl.
  - right. exists result. destruct H as [[]|H]. auto.
  - destruct (String.eqb_spec (type v) "kubernetes") as [Hk|Hk].
    + apply IH. simpl. destruct H as [[->|H]|H]; [right|left|right]; auto;
        apply List.in_or_app; simpl; auto.
    + destruct (String.eqb_spec (type v) "mesos") as [Hm|Hm]; [|left; eauto].
      apply IH. simpl. destruct H as [[->|H]|H]; auto. simpl in Hk. congruence.
Qed.

Section Reporter.
Context (jsonSize : blob -> Z).

Lemma statSync_Some (filePath : string) (content : blob) (w : world) :
  files w !! filePath = Some content ->
  statSync jsonSize filePath w
  = (Ok {| ref := allocated w; size := blobSize jsonSize content |},
     World (files w) (clients w) (trace w) (S (allocated w))).
Proof. intros H. unfold statSync. now rewrite H. Qed.

Lemma statSync_None (filePath : string) (w : world) :
  files w !! filePath = None ->
  statSync jsonSize filePath w = (Throw "ENOENT: no such file or directory, stat", w).
Proof. intros H. unfold statSync. now rewrite H. Qed.

Lemma eachKubernetes_cons (indexName : string) (names results : list string) :
  eachKubernetes jsonSize (indexName :: names) results
  = if String.eqb indexName "" then eachKubernetes jsonSize names results
    else
      kubeSize <- statSync jsonSize (indexFilePath indexName "kubernetes") ;;
      mesosSize <- statSync jsonSize (indexFilePath indexName "mesos") ;;
      if (size kubeSize <? 100) || Nat.eqb (ref kubeSize) (ref mesosSize)
      then eachKubernetes jsonSize names results
      else eachKubernetes jsonSize names (results ++ [indexName])%list.
Proof. reflexivity. Qed.

(** When every artifact has its twin, the report depends on the size of
    the kubernetes artifacts only: two [Stats] objects are never the same
    object. *)
Lemma eachKubernetes_by_kubernetes_size (names results : list string) (w : world) :
  (forall i, In i names -> i <> "" ->
     is_Some (files w !! indexFilePath i "kubernetes")
     /\ is_Some (files w !! indexFilePath i "mesos")) ->
  exists w',
    eachKubernetes jsonSize names results w
    = (Ok (results ++ List.filter (keptBySize jsonSize (files w)) names)%list, w')
    /\ files w' = files w.
Proof.
  revert results w. induction names as [|i names IH]; intros results w Hall.
  - exists w. simpl. now rewrite List.app_nil_r.
  - rewrite eachKubernetes_cons. cbn [List.filter]. unfold keptBySize at 1.
    destruct (String.eqb_spec i "") as [->|Hne]; cbn [negb andb].
    + apply IH. intros j Hj. apply Hall. now right.
    + destruct (Hall i (or_introl eq_refl) Hne) as [[ck Hk] [cm Hm]].
      unfold await. rewrite (statSync_Some _ _ _ Hk).
      set (w1 := World (files w) (clients w) (trace w) (S (allocated w))).
      assert (Hm1 : files w1 !! indexFilePath i "mesos" = Some cm) by exact Hm.
      rewrite (statSync_Some _ _ _ Hm1), Hk. cbn [ref size allocated w1].
      replace (allocated w =? S (allocated w))%nat with false
        by (symmetry; apply Nat.eqb_neq; lia).
      rewrite orb_false_r.
      set (w2 := World (files w1) (clients w1) (trace w1) (S (S (allocated w)))).
      destruct (blobSize jsonSize ck <? 100); cbn [negb].
      * apply (IH results w2). intros j Hj. apply Hall. now right.
      * destruct (IH (results ++ [i])%list w2) as (w' & Hrun & Hf).
        { intros j Hj. apply Hall. now right. }
        exists w'. rewrite Hrun. split; [|exact Hf].
        now rewrite <- List.app_assoc.
Qed.

Lemma eachKubernetes_missing_mesos (names results : list string) (w : world)
    (indexName : string) :
  In indexName names -> indexName <> "" ->
  files w !! indexFilePath indexName "mesos" = None ->
  exists message w', eachKubernetes jsonSize names results w = (Throw message, w').
Proof.
  revert results w. induction names as [|i names IH]; intros results w Hin Hne Hnone;
    [destruct Hin|]. rewrite eachKubernetes_cons.
  destruct (String.eqb_spec i "") as [->|Hi].
  - destruct Hin as [<-|Hin]; [congruence|]. now apply IH.
  - unfold await.
    destruct (files w !! indexFilePath i "kubernetes") as [ck|] eqn:Hk;
      [|rewrite (statSync_None _ _ Hk); eauto].
    rewrite (statSync_Some _ _ _ Hk).
    set (w1 := World (files w) (clients w) (trace w) (S (allocated w))).
    destruct (files w !! indexFilePath i "mesos") as [cm|] eqn:Hm.
    + assert (Hin' : In indexName names).
      { destruct Hin as [<-|Hin]; [congruence|exact Hin]. }
      assert (Hm1 : files w1 !! indexFilePath i "mesos" = Some cm) by exact Hm.
      rewrite (statSync_Some _ _ _ Hm1).
      destruct (_ || _); apply IH; auto.
    + assert (Hm1 : files w1 !! indexFilePath i "mesos" = None) by exact Hm.
      rewrite (statSync_None _ _ Hm1). eauto.
Qed.
End Reporter.

(** ** C9: a kubernetes artifact without its mesos twin *)

(** C9.  When the scan lists the kubernetes artifact of a (non-empty) index
    name and the store has no [{indexName}-mesos.json], the reporter is
    rejected with an error and returns no list. *)
Theorem getDifferentIndices_missing_mesos (jsonSize : blob -> Z) (w : world)
    (indexName : string) :
  indexName <> "" ->
  In (indexFilePath indexName "kubernetes") (scan w) ->
  files w !! indexFilePath indexName "mesos" = None ->
  exists message w', getDifferentIndices jsonSize w = (Throw message, w').
Proof.
  intros Hne Hscan Hnone. unfold getDifferentIndices, await, glob.
  assert (Hparsed : In (Parsed "kubernetes" indexName) (List.map parseFilepath (scan w))).
  { apply List.in_map_iff. exists (indexFilePath indexName "kubernetes").
    split; [|exact Hscan].
    apply parseFilepath_stem; [|reflexivity..].
    now apply (scan_indexFilePath w indexName "kubernetes"). }
  destruct (transformGroups_kubernetes _ (Groups [] []) indexName (or_introl Hparsed))
    as [[message ->]|(indices & -> & Hin)].
  - unfold reject. eauto.
  - now apply (eachKubernetes_missing_mesos jsonSize _ _ _ indexName).
Qed.

Lemma getDifferentIndices_missing_mesos_witness :
  exists message w',
    getDifferentIndices (fun _ => 0) (loneKubernetesWorld "docs") = (Throw message, w').
Proof.
  apply (getDifferentIndices_missing_mesos (fun _ => 0) (loneKubernetesWorld "docs") "docs").
  - discriminate.
  - vm_compute. auto.
  - reflexivity.
Defined.

(** The two artifacts the reporter passes over without a [stat]: the one of
    the empty index name, which the guard on [indexName] skips, and one in a
    subdirectory, which the scan does not list. *)
Lemma getDifferentIndices_passes_over (jsonSize : blob -> Z) :
  fst (getDifferentIndices jsonSize (loneKubernetesWorld "")) = Ok []
  /\ fst (getDifferentIndices jsonSize (loneKubernetesWorld "team/docs")) = Ok [].
Proof. split; vm_compute; reflexivity. Qed.

(** ** C1: which sizes the reporter compares *)

(** C1, at the input where the code departs from it.  A kubernetes artifact
    of 50 bytes is left out whatever the mesos artifact, and artifacts of 500
    and 400 bytes are reported; but two artifacts of 500 bytes each are
    reported as well: [kubeSize === mesosSize] compares the two [Stats]
    objects, which are never identical, and not their sizes. *)
Theorem getDifferentIndices_reports_equal_sizes (jsonSize : blob -> Z) :
  blobSize jsonSize (textOfSize 50) = 50
  /\ blobSize jsonSize (textOfSize 400) = 400
  /\ blobSize jsonSize (textOfSize 500) = 500
  /\ fst (getDifferentIndices jsonSize (artifactsWorld 50 400)) = Ok []
  /\ fst (getDifferentIndices jsonSize (artifactsWorld 50 50)) = Ok []
  /\ fst (getDifferentIndices jsonSize (artifactsWorld 500 400)) = Ok ["docs"]
  /\ fst (getDifferentIndices jsonSize (artifactsWorld 500 500)) = Ok ["docs"].
Proof. repeat split; vm_compute; reflexivity. Qed.

(** ** The divergence detector *)

(** X7.  On a mapping that lodash does not take for an array, the detector
    returns the non-empty names of the mesos mapping whose size is not the
    kubernetes size of that name, and nothing else. *)
Lemma divergentNames_own_names (mesosIndices kubernetesIndices : list IndexSummary) :
  convertList mesosIndices !! "length" = None ->
  exists names,
    divergentNames mesosIndices kubernetesIndices = Ok names
    /\ forall k, In k names <->
         exists indexName bytes,
           k = KeyName indexName /\ indexName <> ""
           /\ convertList mesosIndices !! indexName = Some bytes
           /\ convertList kubernetesIndices !! indexName <> Some bytes.
Proof.
  intros Hlen. unfold divergentNames, lodashMap. rewrite Hlen.
  eexists. split; [reflexivity|]. intros k.
  rewrite <- list_elem_of_In. unfold compact. rewrite list_elem_of_omap. split.
  - intros (o & Ho & Hk). apply list_elem_of_In, List.in_map_iff in Ho as ([n b] & <- & Hnb).
    apply list_elem_of_In, elem_of_map_to_list in Hnb. simpl in Hk.
    unfold differingName in Hk. simpl in Hk.
    destruct (bool_decide_reflect (convertList kubernetesIndices !! n ≠ Some b)) as [Hd|Hd];
      simpl in Hk; [|discriminate].
    destruct (String.eqb_spec n ""); simpl in Hk; [discriminate|].
    injection Hk as <-. eauto 10.
  - intros (n & b & -> & Hn & Hm & Hd).
    exists (differingName (convertList kubernetesIndices) (Some b) (KeyName n)). split.
    + apply list_elem_of_In, List.in_map_iff. exists (n, b). split; [reflexivity|].
      now apply list_elem_of_In, elem_of_map_to_list.
    + unfold differingName. simpl. rewrite bool_decide_true by exact Hd. simpl.
      destruct (String.eqb_spec n ""); [contradiction|reflexivity].
Qed.

(** ** C4: the names the detector returns *)

(** C4, at the input where the code departs from it.  The accounts of the
    specification's example give [bar] alone.  When both accounts hold an
    index called [length], of sizes 1 and 2, the detector returns nothing:
    lodash walks the mapping [{length: 1}] as an array of one element. *)
Theorem divergentNames_misses_length :
  divergentNames [summary "foo" 100; summary "bar" 50]
                 [summary "foo" 100; summary "bar" 60; summary "baz" 10]
  = Ok [KeyName "bar"]
  /\ convertList [summary "length" 1] !! "length" = Some 1
  /\ convertList [summary "length" 2] !! "length" = Some 2
  /\ divergentNames [summary "length" 1] [summary "length" 2] = Ok []
  /\ fst (getIndicesWithDifferences lengthService emptyWorld) = Ok [].
Proof. repeat split; vm_compute; reflexivity. Qed.

(** * Further properties *)

(** ** The client registry *)

(** X1.  Once [getClient] has answered for an app, every later call answers
    with the world as it is, whatever the credentials then are: the client
    is created once. *)
Theorem getClient_reuses_client (remote remote' : service) (appName : string)
    (w w1 : world) :
  getClient remote appName w = (Ok tt, w1) ->
  getClient remote' appName w1 = (Ok tt, w1)
  /\ files w1 = files w /\ trace w1 = trace w.
Proof.
  unfold getClient.
  case_bool_decide as Happ; simpl negb; cbv iota; [|discriminate].
  case_bool_decide as Hc.
  - intros H. injection H as <-.
    rewrite bool_decide_true by exact Hc. auto.
  - destruct (credentials remote appName); [|discriminate].
    intros H. injection H as <-. simpl.
    rewrite bool_decide_true by (apply elem_of_union_l, elem_of_singleton; reflexivity).
    auto.
Qed.

Lemma getClient_reuses_client_witness :
  let w1 := snd (getClient sampleService "mesos" emptyWorld) in
  getClient lockedService "mesos" w1 = (Ok tt, w1)
  /\ files w1 = files emptyWorld /\ trace w1 = trace emptyWorld.
Proof.
  intros w1.
  apply (getClient_reuses_client sampleService lockedService "mesos" emptyWorld w1).
  reflexivity.
Defined.

(** ** The index-list fetcher, continued *)

(** X2.  For a name that is not one of the two apps and has no cached list,
    the fetch is rejected before any remote call and leaves the world as it
    is. *)
Theorem downloadIndexList_unknown_app (remote : service) (appName : string) (w : world) :
  ~ In appName apps -> files w !! appFilePath appName = None ->
  exists message, downloadIndexList remote appName w = (Throw message, w).
Proof.
  intros Happ Hnone. unfold downloadIndexList, await. fold (appFilePath appName).
  rewrite (isFile_None _ _ Hnone). unfold getClient.
  rewrite bool_decide_false by (now rewrite list_elem_of_In). simpl. eauto.
Qed.

Lemma downloadIndexList_unknown_app_witness :
  exists message,
    downloadIndexList sampleService "staging" emptyWorld = (Throw message, emptyWorld).
Proof.
  apply (downloadIndexList_unknown_app sampleService "staging" emptyWorld).
  - simpl. intros [H|[H|[]]]; discriminate.
  - reflexivity.
Defined.

(** X3.  When the remote listing fails, the fetch is rejected with the
    remote message and stores nothing, so the next call asks the remote
    service again. *)
Theorem downloadIndexList_remote_error (remote : service) (appName message : string)
    (w : world) :
  In appName apps -> credentials remote appName = true ->
  files w !! appFilePath appName = None ->
  listIndexes remote appName = inl message ->
  exists w1 w2,
    downloadIndexList remote appName w = (Throw message, w1)
    /\ files w1 = files w
    /\ trace w1 = (trace w ++ [CallListIndexes appName])%list
    /\ downloadIndexList remote appName w1 = (Throw message, w2)
    /\ trace w2 = (trace w ++ [CallListIndexes appName; CallListIndexes appName])%list.
Proof.
  intros Happ Hcred Hnone Herr.
  assert (Hstep : forall w0, files w0 !! appFilePath appName = None ->
            exists w1, downloadIndexList remote appName w0 = (Throw message, w1)
                       /\ files w1 = files w0
                       /\ trace w1 = (trace w0 ++ [CallListIndexes appName])%list).
  { intros w0 H0. unfold downloadIndexList, await. fold (appFilePath appName).
    rewrite (isFile_None _ _ H0). unfold getClient.
    rewrite bool_decide_true by (now apply list_elem_of_In). simpl negb. cbv iota.
    rewrite Hcred.
    destruct (bool_decide (appName ∈ clients w0)); unfold logEvent; simpl;
      rewrite Herr; unfold reject; eexists; eauto. }
  destruct (Hstep w Hnone) as (w1 & H1 & Hf1 & Ht1).
  destruct (Hstep w1) as (w2 & H2 & Hf2 & Ht2); [now rewrite Hf1|].
  exists w1, w2. repeat (split; [assumption|]).
  rewrite Ht2, Ht1, <- List.app_assoc. reflexivity.
Qed.

Lemma downloadIndexList_remote_error_witness :
  exists w1 w2,
    downloadIndexList downService "mesos" emptyWorld = (Throw "Unreachable hosts", w1)
    /\ files w1 = files emptyWorld
    /\ trace w1 = (trace emptyWorld ++ [CallListIndexes "mesos"])%list
    /\ downloadIndexList downService "mesos" w1 = (Throw "Unreachable hosts", w2)
    /\ trace w2 = (trace emptyWorld ++ [CallListIndexes "mesos"; CallListIndexes "mesos"])%list.
Proof.
  apply (downloadIndexList_remote_error downService "mesos" "Unreachable hosts" emptyWorld);
    try reflexivity.
  simpl. auto.
Defined.

(** X4.  A fulfilled fetch without a cache returns, for the remote items in
    their order, the summaries of exactly those whose name is not something
    followed by [_tmp]. *)
Theorem downloadIndexList_keeps_the_rest (remote : service) (appName : string) (w w1 : world)
    (indexData : list IndexSummary) :
  files w !! appFilePath appName = None ->
  downloadIndexList remote appName w = (Ok indexData, w1) ->
  exists items,
    listIndexes remote appName = inr items
    /\ (forall s, In s indexData <->
          In s (List.map toSummary items) /\ forall x, name s <> x +:+ "_tmp")
    /\ exists dropped, Permutation (List.map toSummary items) (indexData ++ dropped)%list
                       /\ List.Forall (fun s => exists x, name s = x +:+ "_tmp") dropped.
Proof.
  intros Hnone Hcall.
  destruct (downloadIndexList_fresh_inv remote appName w w1 indexData Hnone Hcall)
    as (items & Hitems & -> & _ & _).
  exists items. split; [exact Hitems|]. unfold keptIndices. split.
  - intros s. rewrite List.filter_In, negb_true_iff.
    split; intros [Hin Hs]; (split; [exact Hin|]).
    + intros x Hx.
      assert (endsWith (name s) "_tmp" = true) by (apply endsWith_iff; eauto). congruence.
    + destruct (endsWith (name s) "_tmp") eqn:E; [|reflexivity].
      apply endsWith_iff in E as [x Hx]. now destruct (Hs x).
  - exists (List.filter (fun index => endsWith (name index) "_tmp") (List.map toSummary items)).
    split.
    + generalize (List.map toSummary items). intros l.
      induction l as [|s l IH]; simpl; [reflexivity|].
      destruct (endsWith (name s) "_tmp"); simpl.
      * apply Permutation_cons_app, IH.
      * apply perm_skip, IH.
    + rewrite List.Forall_forall. intros s Hs. apply List.filter_In in Hs as [_ Hs].
      now apply endsWith_iff.
Qed.

Lemma downloadIndexList_keeps_the_rest_witness :
  exists items,
    listIndexes sampleService "mesos" = inr items
    /\ (forall s,
          In s (keptIndices [indexItem "foo" 100; indexItem "bar" 50; indexItem "bar_tmp" 7])
          <-> In s (List.map toSummary items) /\ forall x, name s <> x +:+ "_tmp")
    /\ exists dropped,
         Permutation (List.map toSummary items)
           (keptIndices [indexItem "foo" 100; indexItem "bar" 50; indexItem "bar_tmp" 7]
            ++ dropped)%list
         /\ List.Forall (fun s => exists x, name s = x +:+ "_tmp") dropped.
Proof.
  apply (downloadIndexList_keeps_the_rest sampleService "mesos" emptyWorld
           (snd (downloadIndexList sampleService "mesos" emptyWorld))).
  - reflexivity.
  - reflexivity.
Defined.

(** ** The normaliser, continued *)

Lemma arraySort_of_sorted {A : Type} (comparer : A -> A -> Z) (l : list A) :
  StronglySorted (fun a b => comparer a b <= 0) l -> arraySort comparer l = l.
Proof.
  induction 1 as [|x l Hs IH Hx]; simpl; [reflexivity|].
  rewrite IH. destruct l as [|y l]; simpl; [reflexivity|].
  apply List.Forall_inv in Hx.
  destruct (Z.leb_spec (comparer x y) 0); [reflexivity|lia].
Qed.

Lemma filter_filter_same {A : Type} (f : A -> bool) (l : list A) :
  List.filter f (List.filter f l) = List.filter f l.
Proof.
  induction l as [|x l IH]; simpl; [reflexivity|].
  destruct (f x) eqn:E; simpl; [|exact IH]. rewrite E. now f_equal.
Qed.

Lemma omitID_omitID (r : record) : omitID (omitID r) = omitID r.
Proof. unfold omitID, omit. apply filter_filter_same. Qed.

Lemma omitID_normalize (result : list record) :
  List.map omitID (normalize result) = normalize result.
Proof.
  rewrite <- (List.map_id (normalize result)) at 2. apply List.map_ext_in.
  intros r Hr. apply (Permutation_in _ (normalize_Permutation result)) in Hr.
  apply List.in_map_iff in Hr as (r0 & <- & _). apply omitID_omitID.
Qed.

Lemma toEntries_sorted_multiple (n : Z) (l : list record) :
  StronglySorted (fun a b => compareCriteria (keyTuple a) (keyTuple b) <= 0) l ->
  StronglySorted (fun a b => compareMultiple a b <= 0) (toEntries sortKeys n l).
Proof.
  intros Hs. revert n. induction Hs as [|v l Hs IH Hv]; intros n; cbn [toEntries];
    constructor; [apply IH|].
  rewrite List.Forall_forall in Hv |- *. intros e He.
  apply toEntries_criteria in He as (Hin & Hidx & Hc).
  unfold compareMultiple. cbn [criteria index]. rewrite Hc.
  fold (keyTuple v) (keyTuple (value e)).
  specialize (Hv _ Hin). cbv beta in Hv.
  destruct (Z.eqb_spec (compareCriteria (keyTuple v) (keyTuple (value e))) 0); lia.
Qed.

(** X5.  Normalising a normalised list changes nothing (typed keys). *)
Theorem normalize_idempotent (ts : list column) (result : list record) :
  List.Forall (fun r => keys_ok ts (keyTuple r)) result ->
  normalize (normalize result) = normalize result.
Proof.
  intros Hok. unfold normalize at 1, sortBy. fold omitID.
  rewrite omitID_normalize, arraySort_of_sorted.
  - apply toEntries_value.
  - apply toEntries_sorted_multiple. now apply (normalize_ascending ts).
Qed.

Lemma normalize_idempotent_witness :
  normalize (normalize [hitNoUrl; hitIntroNext; hitSecond; hitIntro; hitFirst])
  = normalize [hitNoUrl; hitIntroNext; hitSecond; hitIntro; hitFirst].
Proof.
  apply (normalize_idempotent docColumns). repeat constructor.
Defined.

Lemma compareCriteria_head (c d : option json) (cs ds : list (option json)) :
  compareCriteria (c :: cs) (d :: ds) <= 0 -> compareAscending c d <= 0.
Proof.
  simpl. destruct (Z.eqb_spec (compareAscending c d) 0); lia.
Qed.

(** X6.  The url is the leading key: in the output of typed hits the urls
    never decrease, so of two records with string urls the earlier one has
    the smaller or the same url, whatever their other keys. *)
Theorem normalize_orders_urls (ts : list column) (result : list record) :
  List.Forall (fun r => keys_ok ts (keyTuple r)) result ->
  forall (l1 l2 l3 : list record) (a b : record) (s t : string),
    normalize result = (l1 ++ a :: l2 ++ b :: l3)%list ->
    property ["url"] a = Some (JStr s) -> property ["url"] b = Some (JStr t) ->
    String.compare s t <> Gt.
Proof.
  intros Hok l1 l2 l3 a b s t Heq Ha Hb.
  pose proof (normalize_ascending ts result Hok) as Hs.
  rewrite Heq in Hs. apply StronglySorted_precedes in Hs.
  unfold keyTuple, sortKeys in Hs. cbn [List.map] in Hs.
  apply compareCriteria_head in Hs. rewrite Ha, Hb, compareAscending_strings in Hs.
  destruct (String.compare s t); [discriminate|discriminate|lia].
Qed.

Lemma normalize_orders_urls_witness :
  String.compare "https://docs.example/api" "https://docs.example/intro" <> Gt.
Proof.
  apply (normalize_orders_urls docColumns [hitIntro; hitFirst] ltac:(repeat constructor)
           [] [] [] (omitID hitFirst) (omitID hitIntro)); reflexivity.
Defined.

(** ** The divergence detector, continued *)

Lemma divergentNames_own_names_witness :
  exists names,
    divergentNames [summary "foo" 100; summary "bar" 50]
                   [summary "foo" 100; summary "bar" 60; summary "baz" 10] = Ok names
    /\ forall k, In k names <->
         exists indexName bytes,
           k = KeyName indexName /\ indexName <> ""
           /\ convertList [summary "foo" 100; summary "bar" 50] !! indexName = Some bytes
           /\ convertList [summary "foo" 100; summary "bar" 60; summary "baz" 10] !! indexName
              <> Some bytes.
Proof.
  apply (divergentNames_own_names [summary "foo" 100; summary "bar" 50]
           [summary "foo" 100; summary "bar" 60; summary "baz" 10]).
  reflexivity.
Defined.

Lemma convertList_snoc (l : list IndexSummary) (x : IndexSummary) :
  convertList (l ++ [x])
  = if String.eqb (name x) "__proto__" then convertList l
    else <[name x := dataSize x]> (convertList l).
Proof. unfold convertList. now rewrite List.fold_left_app. Qed.

(** X8.  The size mapping gives a name the [dataSize] of its last entry in
    the list; it has no other key, and never the key [__proto__]. *)
Theorem convertList_lookup (l : list IndexSummary) (indexName : string) :
  convertList l !! indexName
  = if String.eqb indexName "__proto__" then None
    else dataSize <$> List.find (fun s => String.eqb (name s) indexName) (List.rev l).
Proof.
  induction l as [|x l IH] using List.rev_ind.
  - simpl. unfold convertList. simpl. rewrite lookup_empty. now destruct (String.eqb _ _).
  - rewrite convertList_snoc, List.rev_app_distr. simpl.
    destruct (String.eqb_spec (name x) indexName) as [<-|Hne].
    + destruct (String.eqb_spec (name x) "__proto__") as [Hp|Hp].
      * rewrite IH. destruct (String.eqb_spec (name x) "__proto__"); [reflexivity|contradiction].
      * now rewrite lookup_insert_eq.
    + destruct (String.eqb (name x) "__proto__"); [exact IH|].
      rewrite lookup_insert_ne by exact Hne. exact IH.
Qed.

Lemma compact_all_null (array : list (option key)) :
  List.Forall (fun value => value = None) array -> compact array = [].
Proof.
  unfold compact. induction 1 as [|v l Hv _ IH]; [reflexivity|].
  subst v. simpl. exact IH.
Qed.

(** X9.  When the mesos account has an index called [length] whose size is
    at most 2^32 - 1, and neither account has an index named by a number
    below that size, the detector returns the empty list, whatever else the
    two accounts hold. *)
Theorem divergentNames_array_like (mesosIndices kubernetesIndices : list IndexSummary)
    (length : Z) :
  convertList mesosIndices !! "length" = Some length ->
  0 <= length <= 4294967295 ->
  (forall i, 0 <= i < length ->
     convertList mesosIndices !! pretty i = None
     /\ convertList kubernetesIndices !! pretty i = None) ->
  divergentNames mesosIndices kubernetesIndices = Ok [].
Proof.
  intros Hlen Hrange Hnum. unfold divergentNames, lodashMap. rewrite Hlen.
  assert (isLength length = true) as ->.
  { unfold isLength, MAX_SAFE_INTEGER. apply andb_true_iff. split; lia. }
  destruct (Z.ltb_spec 4294967295 length); [lia|].
  f_equal. apply compact_all_null.
  rewrite List.Forall_forall. intros v Hv.
  apply List.in_map_iff in Hv as (i & <- & Hi).
  apply list_elem_of_In, elem_of_seqZ in Hi.
  destruct (Hnum i ltac:(lia)) as [Hm Hk].
  unfold differingName. simpl. rewrite Hm, Hk.
  now rewrite bool_decide_false by congruence.
Qed.

Lemma divergentNames_array_like_witness :
  divergentNames [summary "length" 3; summary "docs" 50] [summary "docs" 60] = Ok [].
Proof.
  apply (divergentNames_array_like _ _ 3).
  - reflexivity.
  - lia.
  - intros i Hi.
    assert (i = 0 \/ i = 1 \/ i = 2) as [-> | [-> | ->]] by lia; split; reflexivity.
Defined.

(** X10.  When the mesos account has an index called [length] whose size is
    above 2^32 - 1 (and a safe integer), the detector throws a
    [RangeError]. *)
Theorem divergentNames_length_too_large (mesosIndices kubernetesIndices : list IndexSummary)
    (length : Z) :
  convertList mesosIndices !! "length" = Some length ->
  4294967295 < length <= MAX_SAFE_INTEGER ->
  divergentNames mesosIndices kubernetesIndices = Throw "RangeError: Invalid array length".
Proof.
  intros Hlen Hrange. unfold divergentNames, lodashMap. rewrite Hlen.
  assert (isLength length = true) as ->.
  { unfold isLength. apply andb_true_iff. split; lia. }
  destruct (Z.ltb_spec 4294967295 length); [reflexivity|lia].
Qed.

Lemma divergentNames_length_too_large_witness :
  divergentNames [summary "length" 5000000000] [] = Throw "RangeError: Invalid array length".
Proof.
  apply (divergentNames_length_too_large _ _ 5000000000).
  - reflexivity.
  - unfold MAX_SAFE_INTEGER. lia.
Defined.

(** X11.  With both lists in the cache the detector works offline: it is
    the detector's computation on the two cached lists, with no remote
    call, no write and no use of credentials. *)
Theorem getIndicesWithDifferences_cached (remote : service)
    (mesosIndices kubernetesIndices : list IndexSummary) (w : world) :
  files w !! appFilePath "mesos" = Some (IndexListFile mesosIndices) ->
  files w !! appFilePath "kubernetes" = Some (IndexListFile kubernetesIndices) ->
  getIndicesWithDifferences remote w
  = (divergentNames mesosIndices kubernetesIndices, w).
Proof.
  intros Hm Hk. unfold getIndicesWithDifferences, await.
  rewrite (downloadIndexList_cached remote "mesos" mesosIndices w Hm).
  now rewrite (downloadIndexList_cached remote "kubernetes" kubernetesIndices w Hk).
Qed.

Lemma getIndicesWithDifferences_cached_witness :
  getIndicesWithDifferences lockedService listsWorld
  = (divergentNames [summary "foo" 100; summary "bar" 50]
                    [summary "foo" 100; summary "bar" 60; summary "baz" 10], listsWorld).
Proof.
  apply (getIndicesWithDifferences_cached lockedService); reflexivity.
Defined.

(** X12.  When the listing of the mesos account fails, the whole run is
    rejected with the remote message: the kubernetes account is not asked,
    nothing is downloaded or written, and no report is made. *)
Theorem main_aborts_on_listing_failure (remote : service) (jsonSize : blob -> Z)
    (message : string) (w : world) :
  credentials remote "mesos" = true ->
  files w !! appFilePath "mesos" = None ->
  listIndexes remote "mesos" = inl message ->
  exists w1,
    main remote jsonSize w = (Throw message, w1)
    /\ files w1 = files w
    /\ trace w1 = (trace w ++ [CallListIndexes "mesos"])%list.
Proof.
  intros Hcred Hnone Herr.
  unfold main, downloadIndicesWithDifferences, getIndicesWithDifferences, await.
  unfold downloadIndexList at 1. unfold await. fold (appFilePath "mesos").
  rewrite (isFile_None _ _ Hnone). unfold getClient.
  rewrite bool_decide_true by (apply list_elem_of_In; simpl; auto).
  simpl negb. cbv iota. rewrite Hcred.
  destruct (bool_decide ("mesos" ∈ clients w)); unfold logEvent; simpl;
    rewrite Herr; unfold reject; eexists; eauto.
Qed.

Lemma main_aborts_on_listing_failure_witness :
  exists w1,
    main downService (fun _ => 0) emptyWorld = (Throw "Unreachable hosts", w1)
    /\ files w1 = files emptyWorld
    /\ trace w1 = (trace emptyWorld ++ [CallListIndexes "mesos"])%list.
Proof.
  apply (main_aborts_on_listing_failure downService (fun _ => 0) "Unreachable hosts" emptyWorld);
    reflexivity.
Defined.

(** ** The download orchestrator, continued *)

Lemma appFilePath_not_indexFilePath (appName indexName appName' : string) :
  appFilePath appName <> indexFilePath indexName appName'.
Proof.
  unfold appFilePath, indexFilePath. intros H. cbv in H. discriminate.
Qed.

(** X13.  Cache files never collide: the files of two different pairs of an
    index name and an app differ, and the list file of an app is never the
    file of a pair. *)
Theorem cache_files_distinct (indexName indexName' appName appName' : string) :
  In appName apps -> In appName' apps ->
  (indexFilePath indexName appName = indexFilePath indexName' appName' ->
   indexName = indexName' /\ appName = appName')
  /\ appFilePath appName <> indexFilePath indexName' appName'
  /\ (appFilePath appName = appFilePath appName' -> appName = appName').
Proof.
  intros Ha Ha'. split; [now apply indexFilePath_inj|].
  split; [apply appFilePath_not_indexFilePath|].
  unfold appFilePath. intros H.
  apply (String.app_inj "./dist/apps/") in H. now apply append_inj_r in H.
Qed.

Lemma cache_files_distinct_witness :
  (indexFilePath "docs-mesos" "kubernetes" = indexFilePath "docs" "mesos" ->
   "docs-mesos" = "docs" /\ "kubernetes" = "mesos")
  /\ appFilePath "kubernetes" <> indexFilePath "docs" "mesos"
  /\ (appFilePath "kubernetes" = appFilePath "mesos" -> "kubernetes" = "mesos").
Proof.
  apply (cache_files_distinct "docs-mesos" "docs" "kubernetes" "mesos"); simpl; auto.
Defined.

Lemma downloadAll_all_cached (remote : service) (indices : list key) (w : world) :
  (forall k a, In k indices -> In a apps ->
     is_Some (files w !! indexFilePath (keyString k) a)) ->
  downloadAll remote indices w = (Ok tt, w).
Proof.
  unfold downloadAll. induction indices as [|k indices IH]; intros Hall; [reflexivity|].
  cbn [pMap]. unfold await at 1. unfold apps at 1. cbn [pMap]. unfold await at 1 2.
  destruct (Hall k "mesos") as [c1 H1]; [now left|simpl; auto|].
  destruct (Hall k "kubernetes") as [c2 H2]; [now left|simpl; auto|].
  rewrite (downloadPair_cached remote _ _ c1 w H1).
  rewrite (downloadPair_cached remote _ _ c2 w H2).
  unfold resolve. apply IH. intros k' a Hk. apply Hall. now right.
Qed.

(** X14.  Running the batch again is a no-op: after a batch with
    credentials, a second batch over the same indices - even with a service
    that has no credentials and fails every browse - is fulfilled and
    leaves the world as it is. *)
Theorem downloadAll_again (remote remote' : service) (indices : list key) (w : world) :
  (forall a, In a apps -> credentials remote a = true) ->
  exists w',
    downloadAll remote indices w = (Ok tt, w')
    /\ downloadAll remote' indices w' = (Ok tt, w').
Proof.
  intros Hcred.
  destruct (downloadAll_extends remote Hcred indices w) as (w' & Hrun & _ & Hcov).
  exists w'. split; [exact Hrun|]. now apply downloadAll_all_cached.
Qed.

Lemma downloadAll_again_witness :
  exists w',
    downloadAll sampleService [KeyName "foo"; KeyName "bar"] cachedWorld = (Ok tt, w')
    /\ downloadAll lockedService [KeyName "foo"; KeyName "bar"] w' = (Ok tt, w').
Proof.
  apply (downloadAll_again sampleService lockedService). intros a _. reflexivity.
Defined.

(** X15.  The batch only adds artifacts: every file that was there keeps
    its content, every new file is the file of a pair of an index name and
    one of the two apps, and the index lists under [./dist/apps] are as they
    were. *)
Theorem downloadAll_only_adds_artifacts (remote : service) (indices : list key) (w : world) :
  (forall a, In a apps -> credentials remote a = true) ->
  exists w',
    downloadAll remote indices w = (Ok tt, w')
    /\ (forall p c, files w !! p = Some c -> files w' !! p = Some c)
    /\ (forall p c, files w !! p = None -> files w' !! p = Some c ->
          exists i a, In a apps /\ p = indexFilePath i a)
    /\ (forall a, files w' !! appFilePath a = files w !! appFilePath a).
Proof.
  intros Hcred.
  destruct (downloadAll_extends remote Hcred indices w) as (w' & Hrun & [K N _] & _).
  exists w'. split; [exact Hrun|]. split; [exact K|]. split.
  - intros p c Hp Hc. destruct (N p c Hp Hc) as (i & a & Ha & -> & _). eauto.
  - intros a. destruct (files w !! appFilePath a) as [c|] eqn:E; [now apply K|].
    destruct (files w' !! appFilePath a) as [c|] eqn:E'; [|reflexivity].
    destruct (N _ _ E E') as (i & a' & _ & Hp & _).
    now apply appFilePath_not_indexFilePath in Hp.
Qed.

Lemma downloadAll_only_adds_artifacts_witness :
  exists w',
    downloadAll sampleService [KeyName "bar"] listsWorld = (Ok tt, w')
    /\ (forall p c, files listsWorld !! p = Some c -> files w' !! p = Some c)
    /\ (forall p c, files listsWorld !! p = None -> files w' !! p = Some c ->
          exists i a, In a apps /\ p = indexFilePath i a)
    /\ (forall a, files w' !! appFilePath a = files listsWorld !! appFilePath a).
Proof.
  apply (downloadAll_only_adds_artifacts sampleService). intros a _. reflexivity.
Defined.

(** X16.  Without credentials and without a client for the first app, the
    first pair that is not cached blocks the batch: its promise never
    settles, nothing is written, and no later pair is reached. *)
Theorem downloadAll_blocks_without_credentials (remote : service) (k : key)
    (indices : list key) (w : world) :
  credentials remote "mesos" = false -> "mesos" ∉ clients w ->
  files w !! indexFilePath (keyString k) "mesos" = None ->
  downloadAll remote (k :: indices) w = (Pending, w).
Proof.
  intros Hcred Hclient Hnone. unfold downloadAll. cbn [pMap]. unfold await at 1.
  unfold apps at 1. cbn [pMap]. unfold await at 1 2.
  rewrite (downloadPair_without_credentials remote (keyString k) "mesos" w);
    [reflexivity|simpl; auto|assumption..].
Qed.

Lemma downloadAll_blocks_without_credentials_witness :
  downloadAll lockedService [KeyName "bar"; KeyName "foo"] listsWorld = (Pending, listsWorld).
Proof.
  apply (downloadAll_blocks_without_credentials lockedService).
  - reflexivity.
  - intros H. apply elem_of_empty in H. exact H.
  - reflexivity.
Defined.

(** ** The content-diff reporter, continued *)

Lemma concat_snoc (sep : string) (l : list string) (x : string) :
  l <> [] -> String.concat sep (l ++ [x]) = String.concat sep l +:+ sep +:+ x.
Proof.
  induction l as [|y l IH]; [congruence|]. intros _.
  destruct l as [|z l].
  - simpl. reflexivity.
  - change (String.concat sep ((y :: z :: l) ++ [x]))
      with (y +:+ sep +:+ String.concat sep ((z :: l) ++ [x])).
    rewrite IH by discriminate.
    change (String.concat sep (y :: z :: l)) with (y +:+ sep +:+ String.concat sep (z :: l)).
    now rewrite !append_assoc.
Qed.

(** A string with a ['-'] is its segments but the last, a ['-'], and the last
    segment; a string without one is its only segment. *)
Lemma split_recombines (s : string) :
  (includes "-" s = true ->
   s = join "-" (dropRight1 (split "-" s)) +:+ "-" +:+ List.last (split "-" s) "")
  /\ (includes "-" s = false ->
      join "-" (dropRight1 (split "-" s)) = "" /\ List.last (split "-" s) "" = s).
Proof.
  split.
  - intros Hinc. destruct (split_cons "-" s) as (seg & segs & E).
    assert (Hne : split "-" s <> []) by (rewrite E; discriminate).
    pose proof (List.app_removelast_last "" Hne) as Hsplit.
    unfold dropRight1, join.
    destruct (List.removelast (split "-" s)) as [|y l] eqn:Er.
    + simpl in Hsplit. apply split_single in Hsplit. congruence.
    + rewrite <- concat_snoc by discriminate. rewrite <- Hsplit.
      symmetry. apply (join_split "-" s).
  - intros Hinc. now rewrite (split_without "-" s Hinc).
Qed.

(** X17.  What the reporter reads from a file name recombines to the name:
    when the basename has a ['-'], it is the index name, a ['-'] and the
    type; when it has none, the index name is empty and the type is the whole
    basename. *)
Theorem parseFilepath_recombines (filepath : string) :
  (includes "-" (basename filepath ".json") = true ->
   basename filepath ".json"
   = indexName (parseFilepath filepath) +:+ "-" +:+ type (parseFilepath filepath))
  /\ (includes "-" (basename filepath ".json") = false ->
      indexName (parseFilepath filepath) = ""
      /\ type (parseFilepath filepath) = basename filepath ".json").
Proof. unfold parseFilepath. cbn [indexName type]. apply split_recombines. Qed.

Lemma parseFilepath_recombines_witness :
  basename "./dist/indices/docs-v2-mesos.json" ".json"
  = indexName (parseFilepath "./dist/indices/docs-v2-mesos.json") +:+ "-"
    +:+ type (parseFilepath "./dist/indices/docs-v2-mesos.json")
  /\ indexName (parseFilepath "./dist/indices/kubernetes.json") = ""
  /\ type (parseFilepath "./dist/indices/kubernetes.json")
     = basename "./dist/indices/kubernetes.json" ".json".
Proof.
  split.
  - apply (parseFilepath_recombines "./dist/indices/docs-v2-mesos.json"). reflexivity.
  - apply (parseFilepath_recombines "./dist/indices/kubernetes.json"). reflexivity.
Defined.

Lemma transformGroups_stray (values : list parsed) (result : groups) (v : parsed) :
  In v values -> type v <> "kubernetes" -> type v <> "mesos" ->
  exists message, transformGroups values result = Throw message.
Proof.
  revert result. induction values as [|x values IH]; intros result Hin Hk Hm; [destruct Hin|].
  simpl. destruct Hin as [->|Hin].
  - destruct (String.eqb_spec (type v) "kubernetes"); [contradiction|].
    destruct (String.eqb_spec (type v) "mesos"); [contradiction|]. eauto.
  - destruct (String.eqb (type x) "kubernetes"); [now apply IH|].
    destruct (String.eqb (type x) "mesos"); [now apply IH|]. eauto.
Qed.

(** X18.  One listed file whose last segment is neither [kubernetes] nor
    [mesos] makes the reporter throw: no report is returned, whatever the
    other artifacts are. *)
Theorem getDifferentIndices_stray_file (jsonSize : blob -> Z) (w : world) (filepath : string) :
  In filepath (scan w) ->
  type (parseFilepath filepath) <> "kubernetes" ->
  type (parseFilepath filepath) <> "mesos" ->
  exists message, getDifferentIndices jsonSize w = (Throw message, w).
Proof.
  intros Hin Hk Hm. unfold getDifferentIndices, await, glob.
  destruct (transformGroups_stray (List.map parseFilepath (scan w)) (Groups [] [])
              (parseFilepath filepath)) as [message ->]; auto.
  - apply List.in_map, Hin.
  - unfold reject. eauto.
Qed.

Lemma getDifferentIndices_stray_file_witness :
  exists message, getDifferentIndices (fun _ => 0) strayWorld = (Throw message, strayWorld).
Proof.
  apply (getDifferentIndices_stray_file (fun _ => 0) strayWorld "./dist/indices/notes.json").
  - vm_compute. auto.
  - discriminate.
  - discriminate.
Defined.

Lemma prefix_inv (s t : string) : String.prefix s t = true -> exists r, t = s +:+ r.
Proof.
  revert t. induction s as [|a s IH]; intros t H.
  - exists t. reflexivity.
  - destruct t as [|b t]; simpl in H; [discriminate|].
    destruct (ascii_dec a b) as [->|]; [|discriminate].
    destruct (IH t H) as [r ->]. exists r. reflexivity.
Qed.

(** A listed path is the directory, a non-empty stem without ['/'], and the
    extension. *)
Lemma scan_shape (w : world) (filepath : string) :
  In filepath (scan w) ->
  exists stem, filepath = indicesDir +:+ stem +:+ ".json"
               /\ includes "/" stem = false /\ stem <> "".
Proof.
  intros H. apply scan_listed in H as [_ H].
  unfold matchesIndicesGlob in H. apply andb_true_iff in H as [Hp H].
  apply prefix_inv in Hp as [rest ->].
  rewrite length_append in H.
  replace (String.length indicesDir + String.length rest - String.length indicesDir)%nat
    with (String.length rest) in H by lia.
  rewrite substring_suffix in H.
  destruct (split "/" rest) as [|x [|y l]] eqn:E; try discriminate.
  apply split_single in E. apply andb_true_iff in H as [He Hdot].
  apply endsWith_iff in He as [stem ->]. exists stem. split; [reflexivity|].
  rewrite includes_append in E. apply orb_false_iff in E as [E _].
  split; [exact E|]. intros ->. discriminate.
Qed.

Lemma transformGroups_sorted_in (values : list parsed) (result : groups) :
  List.Forall (fun v => type v = "kubernetes" \/ type v = "mesos") values ->
  exists indices,
    transformGroups values result = Ok indices
    /\ forall i, In i (kubernetes indices) <->
         In i (kubernetes result) \/ In (Parsed "kubernetes" i) values.
Proof.
  intros Hall. revert result. induction Hall as [|v values Hv _ IH]; intros result.
  - exists result. split; [reflexivity|]. intros i. simpl. tauto.
  - destruct v as [t n]. simpl in Hv |- *.
    destruct (String.eqb_spec t "kubernetes") as [->|Hk].
    + destruct (IH (Groups (kubernetes result ++ [n]) (mesos result))) as (g & -> & Hg).
      exists g. split; [reflexivity|]. intros i. rewrite Hg. simpl.
      rewrite List.in_app_iff. simpl. split.
      * intros [[H|[->|[]]]|H]; auto.
      * intros [H|[H|H]]; auto. injection H as ->. auto.
    + destruct Hv as [Hv|Hv]; [contradiction|]. subst t. simpl.
      destruct (IH (Groups (kubernetes result) (mesos result ++ [n]))) as (g & -> & Hg).
      exists g. split; [reflexivity|]. intros i. rewrite Hg. simpl. split.
      * intros [H|H]; auto.
      * intros [H|[H|H]]; auto. discriminate.
Qed.

(** The artifact of a non-empty index name is listed exactly when the scan
    yields that name with the type [kubernetes]. *)
Lemma scan_kubernetes_names (w : world) (i : string) :
  i <> "" ->
  In (Parsed "kubernetes" i) (List.map parseFilepath (scan w))
  <-> In (indexFilePath i "kubernetes") (scan w).
Proof.
  intros Hi. rewrite List.in_map_iff. split.
  - intros (p & Hparse & Hp).
    destruct (scan_shape w p Hp) as (stem & -> & Hslash & Hstem).
    pose proof (split_recombines (basename (indicesDir +:+ stem +:+ ".json") ".json"))
      as [Hyes Hno].
    change (join "-" (dropRight1 (split "-"
              (basename (indicesDir +:+ stem +:+ ".json") ".json"))))
      with (indexName (parseFilepath (indicesDir +:+ stem +:+ ".json"))) in Hyes, Hno.
    change (List.last (split "-" (basename (indicesDir +:+ stem +:+ ".json") ".json")) "")
      with (type (parseFilepath (indicesDir +:+ stem +:+ ".json"))) in Hyes, Hno.
    rewrite (basename_indices stem Hstem Hslash) in Hyes, Hno. rewrite Hparse in Hyes, Hno.
    cbn [indexName type] in Hyes, Hno.
    destruct (includes "-" stem) eqn:E.
    + rewrite (Hyes eq_refl) in Hp. now rewrite indexFilePath_stem.
    + destruct (Hno eq_refl) as [Hempty _]. congruence.
  - intros Hp. exists (indexFilePath i "kubernetes"). split; [|exact Hp].
    apply parseFilepath_stem; [|reflexivity..].
    now apply (scan_indexFilePath w i "kubernetes").
Qed.

Section Report.
Context (jsonSize : blob -> Z) (w : world).
Hypothesis no_stray : forall filepath, In filepath (scan w) ->
  type (parseFilepath filepath) = "kubernetes" \/ type (parseFilepath filepath) = "mesos".
Hypothesis twins : forall i, i <> "" ->
  In (indexFilePath i "kubernetes") (scan w) ->
  is_Some (files w !! indexFilePath i "mesos").

Lemma reporter_report :
  exists report w',
    getDifferentIndices jsonSize w = (Ok report, w')
    /\ files w' = files w
    /\ forall i, In i report <->
         i <> "" /\ In (indexFilePath i "kubernetes") (scan w)
         /\ exists content, files w !! indexFilePath i "kubernetes" = Some content
                            /\ 100 <= blobSize jsonSize content.
Proof using no_stray twins.
  unfold getDifferentIndices, await, glob.
  destruct (transformGroups_sorted_in (List.map parseFilepath (scan w)) (Groups [] []))
    as (indices & -> & Hgroup).
  { rewrite List.Forall_forall. intros v Hv.
    apply List.in_map_iff in Hv as (p & <- & Hp). now apply no_stray. }
  assert (Hnames : forall i, i <> "" ->
            (In i (kubernetes indices) <-> In (indexFilePath i "kubernetes") (scan w))).
  { intros i Hi. rewrite Hgroup, <- (scan_kubernetes_names w i Hi). simpl. tauto. }
  destruct (eachKubernetes_by_kubernetes_size jsonSize (kubernetes indices) [] w)
    as (w' & -> & Hf).
  { intros i Hin Hi. apply (Hnames i Hi) in Hin. split; [|now apply twins].
    now apply scan_listed in Hin as [Hin _]. }
  exists (List.filter (keptBySize jsonSize (files w)) (kubernetes indices)), w'.
  split; [reflexivity|]. split; [exact Hf|].
  intros i. rewrite List.filter_In. unfold keptBySize. rewrite andb_true_iff, negb_true_iff.
  rewrite String.eqb_neq. split.
  - intros (Hin & Hi & Hsize). split; [exact Hi|]. split; [now apply Hnames|].
    destruct (files w !! indexFilePath i "kubernetes") as [c|]; [|discriminate].
    exists c. split; [reflexivity|].
    apply negb_true_iff in Hsize. now apply Z.ltb_ge in Hsize.
  - intros (Hi & Hin & c & Hc & Hsize). split; [now apply Hnames|]. split; [exact Hi|].
    rewrite Hc. apply negb_true_iff. now apply Z.ltb_ge.
Qed.
End Report.

(** X19.  In a store whose listed files all end in [-kubernetes] or
    [-mesos] and where every listed kubernetes artifact has its mesos twin,
    the report holds exactly the non-empty index names whose kubernetes
    artifact is listed and has 100 bytes or more; the mesos artifacts have no
    part in it and no file is changed. *)
Theorem getDifferentIndices_report (jsonSize : blob -> Z) (w : world) :
  (forall filepath, In filepath (scan w) ->
     type (parseFilepath filepath) = "kubernetes" \/ type (parseFilepath filepath) = "mesos") ->
  (forall i, i <> "" -> In (indexFilePath i "kubernetes") (scan w) ->
     is_Some (files w !! indexFilePath i "mesos")) ->
  exists report w',
    getDifferentIndices jsonSize w = (Ok report, w')
    /\ files w' = files w
    /\ forall i, In i report <->
         i <> "" /\ In (indexFilePath i "kubernetes") (scan w)
         /\ exists content, files w !! indexFilePath i "kubernetes" = Some content
                            /\ 100 <= blobSize jsonSize content.
Proof. intros H1 H2. now apply reporter_report. Qed.

Lemma scan_docsWorld (kubernetesContent mesosContent : blob) (filepath : string) :
  In filepath (scan (docsWorld kubernetesContent mesosContent)) ->
  filepath = indexFilePath "docs" "kubernetes" \/ filepath = indexFilePath "docs" "mesos".
Proof.
  intros H. apply scan_listed in H as [[c H] _]. unfold docsWorld in H. simpl in H.
  apply lookup_insert_Some in H as [[<- _]|[_ H]]; [now left|].
  apply lookup_singleton_Some in H as [<- _]. now right.
Qed.

Lemma getDifferentIndices_report_witness :
  exists report w',
    getDifferentIndices (fun _ => 0) (artifactsWorld 500 500) = (Ok report, w')
    /\ files w' = files (artifactsWorld 500 500)
    /\ forall i, In i report <->
         i <> "" /\ In (indexFilePath i "kubernetes") (scan (artifactsWorld 500 500))
         /\ exists content,
              files (artifactsWorld 500 500) !! indexFilePath i "kubernetes" = Some content
              /\ 100 <= blobSize (fun _ => 0) content.
Proof.
  apply (getDifferentIndices_report (fun _ => 0) (artifactsWorld 500 500)).
  - intros filepath H.
    apply (scan_docsWorld (textOfSize 500) (textOfSize 500)) in H as [->| ->];
      [left|right]; reflexivity.
  - intros i _ H. apply (scan_docsWorld (textOfSize 500) (textOfSize 500)) in H as [H|H].
    + apply indexFilePath_inj in H as [-> _]; [|simpl; auto..]. vm_compute. eauto.
    + apply indexFilePath_inj in H as [_ H]; [discriminate|simpl; auto..].
Defined.

(** X20.  An error marker takes part in the report by its length alone: in
    a store as above, an index whose kubernetes artifact is the marker
    [ERROR: <message>] is reported exactly when the message has 93
    bytes or more. *)
Theorem getDifferentIndices_error_marker (jsonSize : blob -> Z) (w : world)
    (indexName message : string) :
  (forall filepath, In filepath (scan w) ->
     type (parseFilepath filepath) = "kubernetes" \/ type (parseFilepath filepath) = "mesos") ->
  (forall i, i <> "" -> In (indexFilePath i "kubernetes") (scan w) ->
     is_Some (files w !! indexFilePath i "mesos")) ->
  indexName <> "" ->
  In (indexFilePath indexName "kubernetes") (scan w) ->
  files w !! indexFilePath indexName "kubernetes" = Some (TextFile ("ERROR: " +:+ message)) ->
  exists report w',
    getDifferentIndices jsonSize w = (Ok report, w')
    /\ (In indexName report <-> (93 <= String.length message)%nat).
Proof.
  intros H1 H2 Hi Hscan Hfile.
  destruct (reporter_report jsonSize w H1 H2) as (report & w' & Hrun & _ & Hrep).
  exists report, w'. split; [exact Hrun|]. rewrite Hrep. split.
  - intros (_ & _ & c & Hc & Hsize). rewrite Hfile in Hc. injection Hc as <-.
    simpl in Hsize. rewrite length_append in Hsize. simpl in Hsize. lia.
  - intros Hlen. split; [exact Hi|]. split; [exact Hscan|].
    eexists. split; [exact Hfile|]. simpl. rewrite length_append. simpl. lia.
Qed.

Lemma getDifferentIndices_error_marker_witness :
  exists report w',
    getDifferentIndices (fun _ => 5000)
      (docsWorld (TextFile ("ERROR: " +:+ "Index does not exist")) (RecordsFile [hitIntro]))
    = (Ok report, w')
    /\ (In "docs" report <-> (93 <= String.length "Index does not exist")%nat).
Proof.
  apply (getDifferentIndices_error_marker (fun _ => 5000)
           (docsWorld (TextFile ("ERROR: " +:+ "Index does not exist")) (RecordsFile [hitIntro]))
           "docs" "Index does not exist").
  - intros filepath H. apply scan_docsWorld in H as [->| ->]; [left|right]; reflexivity.
  - intros i _ H. apply scan_docsWorld in H as [H|H].
    + apply indexFilePath_inj in H as [-> _]; [|simpl; auto..]. vm_compute. eauto.
    + apply indexFilePath_inj in H as [_ H]; [discriminate|simpl; auto..].
  - discriminate.
  - vm_compute. auto.
  - reflexivity.
Defined.

(** ** The whole run *)

Lemma scan_intro (w : world) (filepath : string) (content : blob) :
  files w !! filepath = Some content -> matchesIndicesGlob filepath = true ->
  In filepath (scan w).
Proof.
  intros Hf Hm. unfold scan. apply List.filter_In. split; [|exact Hm].
  apply List.in_map_iff. exists (filepath, content). split; [reflexivity|].
  now apply list_elem_of_In, elem_of_map_to_list.
Qed.

Lemma matchesIndicesGlob_appFilePath (appName : string) :
  matchesIndicesGlob (appFilePath appName) = false.
Proof. reflexivity. Qed.

Lemma prefix_dot_append (s t : string) :
  s <> "" -> String.prefix "." (s +:+ t) = String.prefix "." s.
Proof.
  destruct s as [|a s]; [congruence|]. intros _. rewrite append_cons.
  cbn [String.prefix]. destruct (ascii_dec "." a); [|reflexivity].
  generalize (s +:+ t). intros u. now destruct s, u.
Qed.

(** The file of a pair is listed by the pattern exactly when the index name
    has no ['/'] and no leading dot. *)
Lemma matchesIndicesGlob_indexFilePath (indexName appName : string) :
  In appName apps ->
  matchesIndicesGlob (indexFilePath indexName appName)
  = negb (includes "/" indexName) && negb (String.prefix "." indexName).
Proof.
  intros Happ. rewrite indexFilePath_stem, matchesIndicesGlob_stem.
  assert (Hslash : includes "/" ((indexName +:+ String "-" appName) +:+ ".json")
                   = includes "/" indexName).
  { rewrite !includes_append.
    destruct Happ as [<-|[<-|[]]]; simpl; now rewrite !orb_false_r. }
  destruct (includes "/" indexName) eqn:E.
  - destruct (split "/" ((indexName +:+ String "-" appName) +:+ ".json"))
      as [|x [|y l]] eqn:Es; try reflexivity.
    apply split_single in Es. congruence.
  - rewrite (split_without "/" _ Hslash). simpl. f_equal.
    destruct indexName as [|c i]; [reflexivity|].
    rewrite append_assoc. now apply prefix_dot_append.
Qed.

Section Run.
Context (remote : service).
Hypothesis credentials_ok : forall a, In a apps -> credentials remote a = true.

Lemma downloadPair_files (indexName appName : string) (w : world) :
  In appName apps ->
  exists w',
    downloadPair remote indexName appName w = (Ok tt, w')
    /\ (files w' = files w
        \/ exists c, files w' = <[indexFilePath indexName appName := c]> (files w)).
Proof using credentials_ok.
  intros Happ. destruct (files w !! indexFilePath indexName appName) as [c|] eqn:E.
  - exists w. split; [now apply (downloadPair_cached remote _ _ c)|now left].
  - destruct (downloadPair_fresh remote credentials_ok indexName appName w Happ E)
      as (w' & Hrun & Hf & _).
    exists w'. split; [exact Hrun|]. right. eauto.
Qed.

(** Every file after a batch was there before or is the file of a listed
    index and an app. *)
Lemma downloadAll_files (indices : list key) (w : world) (p : string) (c : blob) :
  files (snd (downloadAll remote indices w)) !! p = Some c ->
  files w !! p = Some c
  \/ exists k a, In k indices /\ In a apps /\ p = indexFilePath (keyString k) a.
Proof using credentials_ok.
  revert w. unfold downloadAll. induction indices as [|k indices IH]; intros w; [now left|].
  cbn [pMap]. unfold await at 1. unfold apps at 1. cbn [pMap]. unfold await at 1 2.
  destruct (downloadPair_files (keyString k) "mesos" w) as (w1 & -> & H1); [simpl; auto|].
  destruct (downloadPair_files (keyString k) "kubernetes" w1) as (w2 & -> & H2);
    [simpl; auto|].
  unfold resolve. intros Hp. apply IH in Hp as [Hp|(k' & a & Hk & Ha & ->)];
    [|right; exists k', a; simpl; auto].
  assert (Hstep : forall (wa wb : world) a,
            In a apps ->
            (files wb = files wa
             \/ exists c0, files wb = <[indexFilePath (keyString k) a := c0]> (files wa)) ->
            files wb !! p = Some c ->
            files wa !! p = Some c
            \/ exists k0 a0, In k0 (k :: indices) /\ In a0 apps
                             /\ p = indexFilePath (keyString k0) a0).
  { intros wa wb a Ha [Hf|[c0 Hf]] Hb; rewrite Hf in Hb; [now left|].
    destruct (decide (indexFilePath (keyString k) a = p)) as [<-|Hne].
    - right. exists k, a. simpl. auto.
    - rewrite lookup_insert_ne in Hb by exact Hne. now left. }
  destruct (Hstep w1 w2 "kubernetes" ltac:(simpl; auto) H2 Hp) as [Hp1|Hdone];
    [|right; exact Hdone].
  exact (Hstep w w1 "mesos" ltac:(simpl; auto) H1 Hp1).
Qed.

Lemma getIndicesWithDifferences_fresh (mesosItems kubernetesItems : list IndexItem)
    (w : world) :
  files w !! appFilePath "mesos" = None ->
  files w !! appFilePath "kubernetes" = None ->
  listIndexes remote "mesos" = inr mesosItems ->
  listIndexes remote "kubernetes" = inr kubernetesItems ->
  exists w1,
    getIndicesWithDifferences remote w
    = (divergentNames (keptIndices mesosItems) (keptIndices kubernetesItems), w1)
    /\ files w1
       = <[appFilePath "kubernetes" := IndexListFile (keptIndices kubernetesItems)]>
           (<[appFilePath "mesos" := IndexListFile (keptIndices mesosItems)]> (files w)).
Proof using credentials_ok.
  intros Hm Hk Him Hik. unfold getIndicesWithDifferences, await.
  destruct (downloadIndexList_fresh remote "mesos" mesosItems w) as (w1 & -> & Hf1 & _);
    auto; [simpl; auto|apply credentials_ok; simpl; auto|].
  destruct (downloadIndexList_fresh remote "kubernetes" kubernetesItems w1)
    as (w2 & -> & Hf2 & _); auto;
    [simpl; auto|apply credentials_ok; simpl; auto| |].
  - rewrite Hf1, lookup_insert_ne by discriminate. exact Hk.
  - exists w2. split; [reflexivity|]. now rewrite Hf2, Hf1.
Qed.
End Run.

(** X21.  The whole run from an empty store, with credentials and both
    listings answering: the report holds exactly the names the detector
    returned that are not empty, have no ['/'] and no leading dot, and whose
    kubernetes download (records or error marker) has 100 bytes or more.
    What was downloaded from mesos has no part in it. *)
Theorem main_report (remote : service) (jsonSize : blob -> Z) (w : world)
    (mesosItems kubernetesItems : list IndexItem) (names : list key) :
  files w = ∅ ->
  (forall a, In a apps -> credentials remote a = true) ->
  listIndexes remote "mesos" = inr mesosItems ->
  listIndexes remote "kubernetes" = inr kubernetesItems ->
  divergentNames (keptIndices mesosItems) (keptIndices kubernetesItems) = Ok names ->
  exists report w',
    main remote jsonSize w = (Ok report, w')
    /\ forall i, In i report <->
         i <> "" /\ In i (List.map keyString names)
         /\ includes "/" i = false /\ String.prefix "." i = false
         /\ 100 <= blobSize jsonSize (downloaded remote i "kubernetes").
Proof.
  intros Hempty Hcred Him Hik Hnames.
  destruct (getIndicesWithDifferences_fresh remote Hcred mesosItems kubernetesItems w)
    as (w1 & Hdetect & Hf1); auto; try (rewrite Hempty; apply lookup_empty).
  destruct (downloadAll_extends remote Hcred names w1) as (w2 & Hrun & [K N _] & Hcov).
  pose proof (downloadAll_files remote Hcred names w1) as Hdom. rewrite Hrun in Hdom.
  cbn [snd] in Hdom.
  assert (Hstart : forall p c, files w1 !! p = Some c -> matchesIndicesGlob p = false).
  { intros p c. rewrite Hf1, Hempty. intros Hp.
    apply lookup_insert_Some in Hp as [[<- _]|[_ Hp]]; [reflexivity|].
    apply lookup_insert_Some in Hp as [[<- _]|[_ Hp]]; [reflexivity|].
    now rewrite lookup_empty in Hp. }
  assert (Hlisted : forall p, In p (scan w2) ->
            exists k a, In k names /\ In a apps /\ p = indexFilePath (keyString k) a).
  { intros p Hp. apply scan_listed in Hp as [[c Hc] Hm].
    destruct (Hdom p c Hc) as [Hold|Hnew]; [|exact Hnew].
    rewrite (Hstart p c Hold) in Hm. discriminate. }
  assert (Hcontent : forall k a, In k names -> In a apps ->
            files w2 !! indexFilePath (keyString k) a
            = Some (downloaded remote (keyString k) a)).
  { intros k a Hk Ha. destruct (Hcov k a Hk Ha) as [c Hc]. rewrite Hc. f_equal.
    destruct (files w1 !! indexFilePath (keyString k) a) as [c1|] eqn:E1.
    - pose proof (Hstart _ _ E1) as Hm.
      assert (files w1 !! indexFilePath (keyString k) a = None) as E0.
      { rewrite Hf1, Hempty, !lookup_insert_ne, lookup_empty; [reflexivity|..];
          apply appFilePath_not_indexFilePath. }
      congruence.
    - destruct (N _ _ E1 Hc) as (i & a' & Ha' & Hp & ->).
      apply indexFilePath_inj in Hp as [<- <-]; auto. }
  destruct (reporter_report jsonSize w2) as (report & w3 & Hreport & _ & Hrep).
  { intros p Hp. destruct (Hlisted p Hp) as (k & a & Hk & Ha & ->).
    rewrite parseFilepath_stem.
    - simpl. destruct Ha as [<-|[<-|[]]]; auto.
    - now apply (scan_indexFilePath w2 _ a).
    - destruct Ha as [<-|[<-|[]]]; reflexivity.
    - destruct Ha as [<-|[<-|[]]]; reflexivity. }
  { intros i Hi Hp. destruct (Hlisted _ Hp) as (k & a & Hk & Ha & Heq).
    apply indexFilePath_inj in Heq as [-> _]; [|simpl; auto..].
    apply Hcov; [exact Hk|simpl; auto]. }
  exists report, w3. split.
  - unfold main, downloadIndicesWithDifferences, await. rewrite Hdetect, Hnames, Hrun.
    exact Hreport.
  - intros i. rewrite Hrep. split.
    + intros (Hi & Hp & c & Hc & Hsize). split; [exact Hi|].
      destruct (Hlisted _ Hp) as (k & a & Hk & Ha & Heq).
      apply indexFilePath_inj in Heq as [-> <-]; [|simpl; auto..].
      split; [apply List.in_map, Hk|].
      apply scan_listed in Hp as [_ Hm].
      rewrite matchesIndicesGlob_indexFilePath in Hm by (simpl; auto).
      apply andb_true_iff in Hm as [Hs Hd]. apply negb_true_iff in Hs, Hd.
      split; [exact Hs|]. split; [exact Hd|].
      rewrite (Hcontent k "kubernetes" Hk ltac:(simpl; auto)) in Hc. now injection Hc as <-.
    + intros (Hi & Hin & Hs & Hd & Hsize).
      apply List.in_map_iff in Hin as (k & <- & Hk).
      pose proof (Hcontent k "kubernetes" Hk ltac:(simpl; auto)) as Hc.
      split; [exact Hi|]. split; [|eauto].
      apply (scan_intro w2 _ _ Hc).
      rewrite matchesIndicesGlob_indexFilePath by (simpl; auto). now rewrite Hs, Hd.
Qed.

Lemma main_report_witness :
  exists report w',
    main sampleService (fun _ => 5000) emptyWorld = (Ok report, w')
    /\ forall i, In i report <->
         i <> "" /\ In i (List.map keyString [KeyName "bar"])
         /\ includes "/" i = false /\ String.prefix "." i = false
         /\ 100 <= blobSize (fun _ => 5000) (downloaded sampleService i "kubernetes").
Proof.
  apply (main_report sampleService (fun _ => 5000) emptyWorld
           [indexItem "foo" 100; indexItem "bar" 50; indexItem "bar_tmp" 7]
           [indexItem "foo" 100; indexItem "bar" 60; indexItem "baz" 10]).
  - reflexivity.
  - intros a _. reflexivity.
  - reflexivity.
  - reflexivity.
  - vm_compute. reflexivity.
Defined.
